(** * Chunked cache for large responses: a shallow embedding of
      [src/lib/chunkedCache.ts] and its verification.

    The module stores one large JSON-serialisable value as a metadata entry
    plus a sequence of bounded string chunks in Next.js' [unstable_cache],
    and reassembles the value on the next read.

    Modelling choices.
    - A JavaScript string is the list of its UTF-16 code units ([jsstring]);
      [String.prototype.length] and [slice] count code units, while
      [TextEncoder] counts UTF-8 bytes ([utf8_length]).
    - [JSON.stringify] / [JSON.parse] are built-ins of the host: the
      development is parametric in them (class [Json]); a concrete instance
      over scalar values ([JsValue]) is used to run the code.
    - Asynchronous code is written in a state-and-exception monad [M] over
      the [World]: the persistent data cache behind [unstable_cache], the
      module level [requestStore], the failures of the cache primitive and
      the number of calls made to the producer.  Console output is not
      modelled.
    - [src/lib/chunkedCache.ts] holds two revisions that differ only in the
      map that carries a value into [unstable_cache]: the module level
      [requestStore], or a map local to each call.  The model follows the
      first; the two cache functions of the second are modelled in [Rev2].
      The older revision in [src/unnamed/part_000] validates the number of
      chunks; its [retrieveFromCache] is modelled in [Part000]. *)

From Stdlib Require Import NArith List Lia Decimal DecimalN.
From Stdlib Require Import Strings.String Strings.Ascii.
From stdpp Require Import base numbers list gmap.

Local Open Scope N_scope.

(** ** JavaScript strings *)

Definition jsstring : Type := list N.

(** The code units of an ASCII literal. *)
Definition js (s : string) : jsstring :=
  List.map N_of_ascii (list_ascii_of_string s).
Arguments js s%_string.

(** [s.length] *)
Definition strlen (s : jsstring) : N := N.of_nat (length s).

Fixpoint takeN (n : N) (s : jsstring) : jsstring :=
  match s with
  | [] => []
  | c :: s' => if n =? 0 then [] else c :: takeN (N.pred n) s'
  end.

Fixpoint dropN (n : N) (s : jsstring) : jsstring :=
  match s with
  | [] => []
  | c :: s' => if n =? 0 then s else dropN (N.pred n) s'
  end.

(** [s.slice(a, b)] for [0 <= a <= b]: the code units from index [a] up to
    (not including) index [min b s.length]. *)
Definition slice (s : jsstring) (a b : N) : jsstring :=
  takeN (b - a) (dropN a s).

(** [chunks.join("")] on an array of strings. *)
Definition join (chunks : list jsstring) : jsstring := concat chunks.

(** The decimal digits of a numeral, as code units. *)
Fixpoint uint_units (d : Decimal.uint) : jsstring :=
  match d with
  | Nil => []
  | D0 d => 48 :: uint_units d
  | D1 d => 49 :: uint_units d
  | D2 d => 50 :: uint_units d
  | D3 d => 51 :: uint_units d
  | D4 d => 52 :: uint_units d
  | D5 d => 53 :: uint_units d
  | D6 d => 54 :: uint_units d
  | D7 d => 55 :: uint_units d
  | D8 d => 56 :: uint_units d
  | D9 d => 57 :: uint_units d
  end.

(** [`${n}`] for a non-negative integer [n] (below 10^21, where JavaScript
    still prints all the digits). *)
Definition number_to_string (n : N) : jsstring := uint_units (N.to_uint n).

(** [new TextEncoder().encode(s).length]: the number of bytes of the UTF-8
    encoding of [s]; an unpaired surrogate is encoded as U+FFFD. *)
Definition is_high_surrogate (c : N) : bool := (55296 <=? c) && (c <=? 56319).
Definition is_low_surrogate (c : N) : bool := (56320 <=? c) && (c <=? 57343).

Fixpoint utf8_length (s : jsstring) : N :=
  match s with
  | [] => 0
  | c :: rest =>
      if c <? 128 then 1 + utf8_length rest
      else if c <? 2048 then 2 + utf8_length rest
      else if is_high_surrogate c then
        match rest with
        | d :: rest' =>
            if is_low_surrogate d then 4 + utf8_length rest'
            else 3 + utf8_length rest
        | [] => 3
        end
      else 3 + utf8_length rest
  end.

(** ** Completions of JavaScript code *)

Inductive Exn : Type :=
| TypeError
| SyntaxError
| RangeError
| Error (message : jsstring).

(** A computation returns, throws (a promise rejects), or does not
    terminate. *)
Inductive Outcome (A : Type) : Type :=
| Ok (a : A)
| Throw (e : Exn)
| Hang.
Arguments Ok {A} a.
Arguments Throw {A} e.
Arguments Hang {A}.

(** ** The serialiser of the host *)

(** [JSON_stringify v] is [Ok (Some text)], [Ok None] when the built-in
    returns [undefined], or [Throw e] (cyclic structures, BigInt).
    [JSON_parse text] is [None] when the built-in throws a SyntaxError. *)
Class Json (Value : Type) : Type := {
  JSON_stringify : Value -> Outcome (option jsstring);
  JSON_parse : jsstring -> option Value
}.

Definition SAFE_CHUNK_SIZE_BYTES : N := 1500000.

(** The [for] loop of [splitIntoChunks].  [fuel] bounds the number of
    iterations, that is the number of chunks that the array takes; [None]
    means the bound was reached with the loop condition still true. *)
Fixpoint chunk_loop (fuel : nat) (jsonString : jsstring)
    (startIndex maxChunkSizeBytes : N) : option (list jsstring) :=
  if startIndex <? strlen jsonString then
    match fuel with
    | O => None
    | S fuel' =>
        let chunk := slice jsonString startIndex (startIndex + maxChunkSizeBytes) in
        match chunk_loop fuel' jsonString (startIndex + maxChunkSizeBytes)
                maxChunkSizeBytes with
        | Some chunks => Some (chunk :: chunks)
        | None => None
        end
    end
  else Some [].

Section Splitter.
Context {Value : Type} `{Json Value}.

(** [splitIntoChunks(data, maxChunkSizeBytes)], returning
    [{ chunks, jsonString }].  Reading [.length] of [undefined] throws a
    TypeError.  With a positive size the loop runs at most
    [jsonString.length] times.  With size zero the start index never moves:
    every iteration pushes one more empty chunk, whatever the bound, until
    the array is full and [chunks.push] throws a RangeError. *)
Definition splitIntoChunks (data : Value) (maxChunkSizeBytes : N)
  : Outcome (list jsstring * jsstring) :=
  match JSON_stringify data with
  | Ok (Some jsonString) =>
      match chunk_loop (length jsonString) jsonString 0 maxChunkSizeBytes with
      | Some chunks => Ok (chunks, jsonString)
      | None => Throw RangeError
      end
  | Ok None => Throw TypeError
  | Throw e => Throw e
  | Hang => Hang
  end.

(** [reassembleChunks(chunks)] *)
Definition reassembleChunks (chunks : list jsstring) : Outcome Value :=
  let combinedJsonString := join chunks in
  match JSON_parse combinedJsonString with
  | Some v => Ok v
  | None => Throw SyntaxError
  end.
End Splitter.

(** [createChunkKey(prefix, chunkIndex)] *)
Definition createChunkKey (prefix : jsstring) (chunkIndex : N) : jsstring :=
  prefix ++ js "::chunk" ++ number_to_string chunkIndex.

(** ** The cache primitive and the module state *)

(** What this module keeps in the cache: the metadata object
    [{ chunkCount }] and the chunk strings. *)
Inductive Cached : Type :=
| CMeta (chunkCount : N)
| CChunk (chunkData : jsstring).

#[global] Instance Exn_eq_dec : EqDecision Exn.
Proof. solve_decision. Defined.
#[global] Instance Cached_eq_dec : EqDecision Cached.
Proof. solve_decision. Defined.

(** - [dataCache]: the entries persisted by [unstable_cache], by cache key;
    - [requestStore]: the module level [Map] of the same name;
    - [faults]: the keys for which a call of the cache primitive rejects,
      with the rejection;
    - [fetches]: how many times the producer [fetchData] has been called. *)
Record World : Type := mkWorld {
  dataCache : gmap jsstring Cached;
  requestStore : gmap jsstring Cached;
  faults : gmap jsstring Exn;
  fetches : nat
}.

Definition M (A : Type) : Type := World -> Outcome A * World.

Definition ret {A} (a : A) : M A := fun w => (Ok a, w).

Definition bind {A B} (m : M A) (k : A -> M B) : M B := fun w =>
  match m w with
  | (Ok a, w') => k a w'
  | (Throw e, w') => (Throw e, w')
  | (Hang, w') => (Hang, w')
  end.

(** [try { m } catch (e) { h e }] *)
Definition try_catch {A} (m : M A) (h : Exn -> M A) : M A := fun w =>
  match m w with
  | (Throw e, w') => h e w'
  | r => r
  end.

(** A pure computation that may throw. *)
Definition lift {A} (o : Outcome A) : M A := fun w => (o, w).

Notation "x <- m ;; k" := (bind m (fun x => k))
  (at level 100, m at next level, right associativity).

(** [await Promise.all(ps)]: every operation is started and runs to its
    end, whatever the others do.  The joined promise fulfils with all the
    results in array order, or rejects with the rejection of one of the
    operations; the model reports the first one in array order.  The
    operations are run one after the other: those joined in this module
    work on keys that differ from each other, so that the order plays no
    part in the world they leave. *)
Fixpoint Promise_all {A} (ps : list (M A)) : M (list A) := fun w =>
  match ps with
  | [] => (Ok [], w)
  | p :: ps' =>
      let (r, w1) := p w in
      let (rs, w2) := Promise_all ps' w1 in
      (match r, rs with
       | Ok a, Ok l => Ok (a :: l)
       | Throw e, _ => Throw e
       | (Ok _ | Hang), Throw e => Throw e
       | Ok _, Hang => Hang
       | Hang, (Ok _ | Hang) => Hang
       end, w2)
  end.

(** [requestStore.set(cacheKey, value)] *)
Definition requestStore_set (cacheKey : jsstring) (value : Cached) : M unit :=
  fun w => (Ok tt, mkWorld (dataCache w) (<[cacheKey := value]> (requestStore w))
                           (faults w) (fetches w)).

(** The callback handed to [unstable_cache] by both [storeCachedValue] and
    [getCachedValue]: read [requestStore], throw when the key is not there. *)
Definition read_requestStore (cacheKey : jsstring) : M Cached := fun w =>
  match requestStore w !! cacheKey with
  | Some stored => (Ok stored, w)
  | None => (Throw (Error (js "Cache miss for key: " ++ cacheKey)), w)
  end.

(** [unstable_cache(cb, [cacheKey], ...)()]: a persisted entry is returned
    without running [cb]; otherwise [cb] runs and its result is persisted
    and returned, and a failure of [cb] is passed on.  A failing primitive
    rejects without any effect.  An entry is identified by the key parts
    [cacheKey] alone, as the comments of [getCachedValue] take it to be
    (a cache function with the same structure); the revalidation time and
    the tags play no part. *)
Definition unstable_cache (cb : M Cached) (cacheKey : jsstring) : M Cached :=
  fun w =>
    match faults w !! cacheKey with
    | Some e => (Throw e, w)
    | None =>
        match dataCache w !! cacheKey with
        | Some v => (Ok v, w)
        | None =>
            match cb w with
            | (Ok v, w') =>
                (Ok v, mkWorld (<[cacheKey := v]> (dataCache w')) (requestStore w')
                               (faults w') (fetches w'))
            | r => r
            end
        end
    end.

Definition cacheKeyOf (key : jsstring) (revalidateSeconds : N) : jsstring :=
  key ++ js ":" ++ number_to_string revalidateSeconds.

(** [storeCachedValue(key, value, revalidateSeconds, tagPrefix)]; the tag
    plays no part in lookups. *)
Definition storeCachedValue (key : jsstring) (value : Cached)
    (revalidateSeconds : N) (tagPrefix : jsstring) : M unit :=
  let cacheKey := cacheKeyOf key revalidateSeconds in
  _ <- requestStore_set cacheKey value ;;
  _ <- unstable_cache (read_requestStore cacheKey) cacheKey ;;
  ret tt.

(** [getCachedValue(key, revalidateSeconds, tagPrefix)]: [None] is [null]. *)
Definition getCachedValue (key : jsstring) (revalidateSeconds : N)
    (tagPrefix : jsstring) : M (option Cached) :=
  let cacheKey := cacheKeyOf key revalidateSeconds in
  try_catch
    (v <- unstable_cache (read_requestStore cacheKey) cacheKey ;; ret (Some v))
    (fun _ => ret None).

Definition storeMetadata (metadataKey : jsstring) (chunkCount : N)
    (revalidateSeconds : N) : M unit :=
  storeCachedValue metadataKey (CMeta chunkCount) revalidateSeconds (js "metadata").

Definition retrieveMetadata (metadataKey : jsstring) (revalidateSeconds : N)
  : M (option Cached) :=
  try_catch
    (getCachedValue metadataKey revalidateSeconds (js "metadata"))
    (fun _ => ret None).

Definition storeChunk (chunkKey : jsstring) (chunkData : jsstring)
    (revalidateSeconds : N) : M unit :=
  storeCachedValue chunkKey (CChunk chunkData) revalidateSeconds (js "chunk").

Definition retrieveChunk (chunkKey : jsstring) (revalidateSeconds : N)
  : M (option Cached) :=
  try_catch
    (getCachedValue chunkKey revalidateSeconds (js "chunk"))
    (fun _ => ret None).

(** How JavaScript reads a cached value where the code expects a metadata
    object or a chunk: [!metadata], [metadata.chunkCount] used as an array
    length, and the string conversion done by [join]. *)
Definition falsy (c : Cached) : bool :=
  match c with
  | CMeta _ => false
  | CChunk s => match s with [] => true | _ => false end
  end.

Definition chunkCount_of (c : Cached) : N :=
  match c with
  | CMeta n => n
  | CChunk _ => 0
  end.

Definition to_string (c : Cached) : jsstring :=
  match c with
  | CChunk s => s
  | CMeta _ => js "[object Object]"
  end.

(** [chunks.filter((chunk) => chunk !== null)] *)
Definition filter_non_null {A} (chunks : list (option A)) : list A :=
  omap id chunks.

Definition DEFAULT_REVALIDATE_SECONDS : N := 60 * 60.

(** ** [createChunkedCache(cacheKeyPrefix, fetchData, revalidateSeconds)] *)
Section ChunkedCache.
Context {Value : Type} `{Json Value}.
(** The producer: [fetchData k] is the completion of its call number [k]
    (counting from zero). *)
Variable cacheKeyPrefix : jsstring.
Variable fetchData : nat -> Outcome Value.
Variable revalidateSeconds : N.

Definition metadataKey : jsstring := js "metadata::" ++ cacheKeyPrefix.

(** [await fetchData()] *)
Definition call_fetchData : M Value := fun w =>
  (fetchData (fetches w),
   mkWorld (dataCache w) (requestStore w) (faults w) (S (fetches w))).

Definition retrieveFromCache : M (option (Value * N)) :=
  metadata <- retrieveMetadata metadataKey revalidateSeconds ;;
  match metadata with
  | None => ret None
  | Some metadata =>
      if falsy metadata then ret None
      else
        let chunkKeys :=
          (fun i => createChunkKey cacheKeyPrefix (N.of_nat i))
            <$> seq 0 (N.to_nat (chunkCount_of metadata)) in
        chunks <- Promise_all
                    ((fun chunkKey => retrieveChunk chunkKey revalidateSeconds)
                       <$> chunkKeys) ;;
        let validChunks := filter_non_null chunks in
        try_catch
          (data <- lift (reassembleChunks (to_string <$> validChunks)) ;;
           ret (Some (data, chunkCount_of metadata)))
          (fun _ => ret None)
  end.

Definition storeInCache (data : Value) : M unit :=
  split <- lift (splitIntoChunks data SAFE_CHUNK_SIZE_BYTES) ;;
  let '(chunks, jsonString) := split in
  _ <- Promise_all
         (storeMetadata metadataKey (N.of_nat (length chunks)) revalidateSeconds
          :: imap (fun index chunk =>
                     storeChunk (createChunkKey cacheKeyPrefix (N.of_nat index))
                                chunk revalidateSeconds)
                  chunks) ;;
  ret tt.

Definition get : M Value :=
  cached <- retrieveFromCache ;;
  match cached with
  | Some (data, _) => ret data
  | None =>
      freshData <- call_fetchData ;;
      _ <- storeInCache freshData ;;
      ret freshData
  end.
End ChunkedCache.

(** ** An instance of the serialiser: JSON over scalar values

    The values [undefined], [null], the booleans, [NaN] and the strings,
    with the texts [JSON.stringify] gives them and [JSON.parse] restricted
    to the texts of such values (numbers, arrays and objects are outside
    this instance). *)
Inductive JsValue : Type :=
| JsUndefined
| JsNull
| JsBool (b : bool)
| JsNaN
| JsString (s : jsstring).

#[global] Instance JsValue_eq_dec : EqDecision JsValue.
Proof. solve_decision. Defined.

Definition hex_digit (n : N) : N := if n <? 10 then 48 + n else 87 + n.

(** [\uXXXX] with lower case digits, as [JSON.stringify] writes it. *)
Definition unicode_escape (c : N) : jsstring :=
  [92; 117; hex_digit (c / 4096); hex_digit ((c / 256) mod 16);
   hex_digit ((c / 16) mod 16); hex_digit (c mod 16)].

(** The body of QuoteJSONString: the two character escapes, [\uXXXX] for
    the other control characters and for unpaired surrogates, everything
    else as it is. *)
Fixpoint quote_units (s : jsstring) : jsstring :=
  match s with
  | [] => []
  | c :: rest =>
      if c =? 8 then 92 :: 98 :: quote_units rest
      else if c =? 9 then 92 :: 116 :: quote_units rest
      else if c =? 10 then 92 :: 110 :: quote_units rest
      else if c =? 12 then 92 :: 102 :: quote_units rest
      else if c =? 13 then 92 :: 114 :: quote_units rest
      else if c =? 34 then 92 :: 34 :: quote_units rest
      else if c =? 92 then 92 :: 92 :: quote_units rest
      else if c <? 32 then unicode_escape c ++ quote_units rest
      else if is_high_surrogate c then
        match rest with
        | d :: rest' =>
            if is_low_surrogate d then c :: d :: quote_units rest'
            else unicode_escape c ++ quote_units rest
        | [] => unicode_escape c
        end
      else if is_low_surrogate c then unicode_escape c ++ quote_units rest
      else c :: quote_units rest
  end.

Definition stringify (v : JsValue) : Outcome (option jsstring) :=
  match v with
  | JsUndefined => Ok None
  | JsNull => Ok (Some (js "null"))
  | JsBool true => Ok (Some (js "true"))
  | JsBool false => Ok (Some (js "false"))
  | JsNaN => Ok (Some (js "null"))
  | JsString s => Ok (Some (34 :: quote_units s ++ [34]))
  end.

Definition unhex (c : N) : option N :=
  if (48 <=? c) && (c <=? 57) then Some (c - 48)
  else if (97 <=? c) && (c <=? 102) then Some (c - 87)
  else if (65 <=? c) && (c <=? 70) then Some (c - 55)
  else None.

Definition simple_escape (e : N) : option N :=
  if e =? 34 then Some 34
  else if e =? 92 then Some 92
  else if e =? 47 then Some 47
  else if e =? 98 then Some 8
  else if e =? 102 then Some 12
  else if e =? 110 then Some 10
  else if e =? 114 then Some 13
  else if e =? 116 then Some 9
  else None.

(** The characters of a JSON string after its opening quote: the decoded
    code units and what follows the closing quote. *)
Fixpoint parse_string_body (s : jsstring) : option (jsstring * jsstring) :=
  match s with
  | [] => None
  | c :: rest =>
      if c =? 34 then Some ([], rest)
      else if c =? 92 then
        match rest with
        | [] => None
        | e :: rest' =>
            if e =? 117 then
              match rest' with
              | h1 :: h2 :: h3 :: h4 :: rest'' =>
                  match unhex h1, unhex h2, unhex h3, unhex h4 with
                  | Some d1, Some d2, Some d3, Some d4 =>
                      match parse_string_body rest'' with
                      | Some (body, after) =>
                          Some (4096 * d1 + 256 * d2 + 16 * d3 + d4 :: body, after)
                      | None => None
                      end
                  | _, _, _, _ => None
                  end
              | _ => None
              end
            else
              match simple_escape e with
              | Some u =>
                  match parse_string_body rest' with
                  | Some (body, after) => Some (u :: body, after)
                  | None => None
                  end
              | None => None
              end
        end
      else if c <? 32 then None
      else
        match parse_string_body rest with
        | Some (body, after) => Some (c :: body, after)
        | None => None
        end
  end.

Definition is_json_whitespace (c : N) : bool :=
  (c =? 32) || (c =? 9) || (c =? 10) || (c =? 13).

Fixpoint skip_whitespace (s : jsstring) : jsstring :=
  match s with
  | c :: rest => if is_json_whitespace c then skip_whitespace rest else s
  | [] => []
  end.

Definition only_whitespace (s : jsstring) : bool :=
  match skip_whitespace s with [] => true | _ => false end.

Fixpoint strip_prefix (p s : jsstring) : option jsstring :=
  match p, s with
  | [], _ => Some s
  | a :: p', b :: s' => if a =? b then strip_prefix p' s' else None
  | _ :: _, [] => None
  end.

Definition parse_literal (word : jsstring) (v : JsValue) (s : jsstring)
  : option JsValue :=
  match strip_prefix word s with
  | Some after => if only_whitespace after then Some v else None
  | None => None
  end.

Definition parse (text : jsstring) : option JsValue :=
  match skip_whitespace text with
  | [] => None
  | c :: rest =>
      if c =? 34 then
        match parse_string_body rest with
        | Some (body, after) =>
            if only_whitespace after then Some (JsString body) else None
        | None => None
        end
      else if c =? 110 then parse_literal (js "null") JsNull (c :: rest)
      else if c =? 116 then parse_literal (js "true") (JsBool true) (c :: rest)
      else if c =? 102 then parse_literal (js "false") (JsBool false) (c :: rest)
      else None
  end.

#[global] Instance JsValue_Json : Json JsValue := {
  JSON_stringify := stringify;
  JSON_parse := parse
}.

(** ** The variant of [retrieveFromCache] in [src/unnamed/part_000]

    That revision of the module compares the number of chunks it could
    retrieve with the count in the metadata before it reassembles them.
    Its retrieval functions (a registry of cache functions over a module
    level [chunkDataStore]) are left abstract here: what is proved about the
    validation holds whatever they return. *)
Module Part000.
Section Validation.
Context {Value : Type} `{Json Value}.
Variable retrieveMetadata : jsstring -> N -> M (option N).
Variable retrieveChunk : jsstring -> N -> M (option jsstring).
Variable cacheKeyPrefix : jsstring.
Variable revalidateSeconds : N.

Definition retrieveFromCache : M (option (Value * N)) :=
  metadata <- retrieveMetadata (metadataKey cacheKeyPrefix) revalidateSeconds ;;
  match metadata with
  | None => ret None
  | Some expectedChunkCount =>
      let chunkKeys :=
        (fun i => createChunkKey cacheKeyPrefix (N.of_nat i))
          <$> seq 0 (N.to_nat expectedChunkCount) in
      chunks <- Promise_all
                  ((fun chunkKey => retrieveChunk chunkKey revalidateSeconds)
                     <$> chunkKeys) ;;
      let validChunks := filter_non_null chunks in
      if negb (N.of_nat (length validChunks) =? expectedChunkCount)
      then ret None
      else
        try_catch
          (data <- lift (reassembleChunks validChunks) ;;
           ret (Some (data, N.of_nat (length validChunks))))
          (fun _ => ret None)
  end.
End Validation.
End Part000.

(** ** The second revision in [src/lib/chunkedCache.ts]

    The revision after the separator differs from the first in the map
    that carries a value into [unstable_cache]: [storeCachedValue] creates a
    map of its own holding the one value, and [getCachedValue] creates an
    empty one. *)
Module Rev2.

(** The callback handed to [unstable_cache]: read the map [store] of the
    call, throw when the key is not there. *)
Definition read_store (store : gmap jsstring Cached) (cacheKey : jsstring)
  : M Cached := fun w =>
  match store !! cacheKey with
  | Some stored => (Ok stored, w)
  | None => (Throw (Error (js "Cache miss for key: " ++ cacheKey)), w)
  end.

Definition storeCachedValue (key : jsstring) (value : Cached)
    (revalidateSeconds : N) (tagPrefix : jsstring) : M unit :=
  let cacheKey := cacheKeyOf key revalidateSeconds in
  let store := <[cacheKey := value]> (∅ : gmap jsstring Cached) in
  _ <- unstable_cache (read_store store cacheKey) cacheKey ;;
  ret tt.

Definition getCachedValue (key : jsstring) (revalidateSeconds : N)
    (tagPrefix : jsstring) : M (option Cached) :=
  let cacheKey := cacheKeyOf key revalidateSeconds in
  try_catch
    (let store := (∅ : gmap jsstring Cached) in
     v <- unstable_cache (read_store store cacheKey) cacheKey ;; ret (Some v))
    (fun _ => ret None).

End Rev2.

(** ** Auxiliary notions for the statements *)

(** A world in which the primitive does not fail and every value held by
    [requestStore] is also persisted: there a retrieval is a lookup in the
    data cache. *)
Definition settled (w : World) : Prop :=
  faults w = ∅ /\ forall k, dataCache w !! k = None -> requestStore w !! k = None.

(** The entries [storeInCache] writes for the given chunks, by key: the
    metadata object first, then chunk number [index] under
    [createChunkKey prefix index]. *)
Definition written_entries (prefix : jsstring) (chunks : list jsstring)
  : list (jsstring * Cached) :=
  (metadataKey prefix, CMeta (N.of_nat (length chunks)))
  :: imap (fun index chunk => (createChunkKey prefix (N.of_nat index), CChunk chunk))
          chunks.

(** The world after one more call of the producer. *)
Definition fetched (w : World) : World :=
  mkWorld (dataCache w) (requestStore w) (faults w) (S (fetches w)).

(** [reassembleChunks(splitIntoChunks(data, maxChunkSizeBytes).chunks)]:
    encode, split, join and decode. *)
Definition split_then_reassemble `{Json Value} (data : Value) (maxChunkSizeBytes : N)
  : Outcome Value :=
  match splitIntoChunks data maxChunkSizeBytes with
  | Ok (chunks, _) => reassembleChunks chunks
  | Throw e => Throw e
  | Hang => Hang
  end.

(** A fresh process in front of an empty, working cache. *)
Definition emptyWorld : World := mkWorld ∅ ∅ ∅ 0.

(** A payload [JSON.stringify] cannot encode at all, such as an object
    that refers to itself: the built-in throws a TypeError. *)
Definition cyclic_Json : Json unit := {|
  JSON_stringify := fun _ => Throw TypeError;
  JSON_parse := fun _ => None
|}.

(** * Properties *)

(** ** Strings and slices *)

Lemma takeN_take (n : N) (s : jsstring) : takeN n s = take (N.to_nat n) s.
Proof.
  revert n. induction s as [|c s IH]; intros n; simpl.
  - by rewrite take_nil.
  - destruct (N.eqb_spec n 0) as [->|Hn]; [done|].
    replace (N.to_nat n) with (S (N.to_nat (N.pred n))) by lia.
    simpl. by rewrite IH.
Qed.

Lemma dropN_drop (n : N) (s : jsstring) : dropN n s = drop (N.to_nat n) s.
Proof.
  revert n. induction s as [|c s IH]; intros n; simpl.
  - by rewrite drop_nil.
  - destruct (N.eqb_spec n 0) as [->|Hn]; [done|].
    replace (N.to_nat n) with (S (N.to_nat (N.pred n))) by lia.
    simpl. by rewrite IH.
Qed.

Lemma slice_take_drop (s : jsstring) (i B : N) :
  slice s i (i + B) = take (N.to_nat B) (drop (N.to_nat i) s).
Proof.
  unfold slice. rewrite takeN_take, dropN_drop.
  by replace (i + B - i) with B by lia.
Qed.

Lemma strlen_app (s t : jsstring) : strlen (s ++ t) = strlen s + strlen t.
Proof. unfold strlen. rewrite length_app. lia. Qed.

Lemma strlen_slice (s : jsstring) (i B : N) : strlen (slice s i (i + B)) <= B.
Proof. rewrite slice_take_drop. unfold strlen. rewrite length_take. lia. Qed.

(** ** The splitting loop *)

Lemma chunk_loop_unfold (fuel : nat) (s : jsstring) (i B : N) :
  chunk_loop fuel s i B =
  if i <? strlen s then
    match fuel with
    | O => None
    | S fuel' =>
        match chunk_loop fuel' s (i + B) B with
        | Some chunks => Some (slice s i (i + B) :: chunks)
        | None => None
        end
    end
  else Some [].
Proof. by destruct fuel. Qed.

Lemma chunk_loop_join (fuel : nat) (s : jsstring) (i B : N) (chunks : list jsstring) :
  chunk_loop fuel s i B = Some chunks ->
  join chunks = drop (N.to_nat i) s.
Proof.
  revert i chunks. induction fuel as [|fuel IH]; intros i chunks;
    rewrite chunk_loop_unfold; destruct (N.ltb_spec i (strlen s)) as [Hlt|Hge];
    try discriminate.
  - intros [= <-]. rewrite drop_ge; [done|]. unfold strlen in Hge. lia.
  - destruct (chunk_loop fuel s (i + B) B) as [rest|] eqn:Hrest; [|discriminate].
    intros [= <-]. unfold join in *. simpl.
    rewrite (IH _ _ Hrest), slice_take_drop.
    replace (N.to_nat (i + B)) with (N.to_nat i + N.to_nat B)%nat by lia.
    by rewrite <- drop_drop, take_drop.
  - intros [= <-]. rewrite drop_ge; [done|]. unfold strlen in Hge. lia.
Qed.

Lemma chunk_loop_bounded (fuel : nat) (s : jsstring) (i B : N) (chunks : list jsstring) :
  chunk_loop fuel s i B = Some chunks ->
  Forall (fun chunk => strlen chunk <= B) chunks.
Proof.
  revert i chunks. induction fuel as [|fuel IH]; intros i chunks;
    rewrite chunk_loop_unfold; destruct (i <? strlen s); try discriminate;
    try (intros [= <-]; constructor).
  destruct (chunk_loop fuel s (i + B) B) as [rest|] eqn:Hrest; [|discriminate].
  intros [= <-]. constructor; [apply strlen_slice | by eapply IH].
Qed.

(** With a positive size, [jsonString.length] iterations are enough. *)
Lemma chunk_loop_total (fuel : nat) (s : jsstring) (i B : N) :
  0 < B -> strlen s - i <= N.of_nat fuel ->
  exists chunks, chunk_loop fuel s i B = Some chunks.
Proof.
  intros HB. revert i. induction fuel as [|fuel IH]; intros i Hfuel;
    rewrite chunk_loop_unfold; destruct (N.ltb_spec i (strlen s)) as [Hlt|Hge];
    eauto.
  - lia.
  - destruct (IH (i + B)) as [rest ->]; [lia|]. eauto.
Qed.

(** The result does not depend on the bound once it covers the iterations. *)
Lemma chunk_loop_fuel (f1 f2 : nat) (s : jsstring) (i B : N) :
  0 < B ->
  strlen s - i <= N.of_nat f1 * B -> strlen s - i <= N.of_nat f2 * B ->
  chunk_loop f1 s i B = chunk_loop f2 s i B.
Proof.
  intros HB. revert f2 i. induction f1 as [|f1 IH]; intros f2 i H1 H2;
    rewrite (chunk_loop_unfold _ s i), (chunk_loop_unfold f2 s i);
    destruct (N.ltb_spec i (strlen s)) as [Hlt|Hge]; try done.
  - lia.
  - destruct f2 as [|f2]; [lia|].
    rewrite (IH f2 (i + B)); [done| lia | lia].
Qed.

Lemma splitIntoChunks_text `{Json Value} (data : Value) (B : N) (text : jsstring) :
  0 < B -> JSON_stringify data = Ok (Some text) ->
  exists chunks,
    splitIntoChunks data B = Ok (chunks, text) /\
    chunk_loop (length text) text 0 B = Some chunks /\
    join chunks = text.
Proof.
  intros HB Htext. unfold splitIntoChunks. rewrite Htext.
  destruct (chunk_loop_total (length text) text 0 B HB) as [chunks Hc].
  { unfold strlen. lia. }
  exists chunks. rewrite Hc. split_and!; [done..|].
  by rewrite (chunk_loop_join _ _ _ _ _ Hc).
Qed.

(** ** Single cache operations *)

Lemma storeCachedValue_ok key value rev tag w :
  faults w !! cacheKeyOf key rev = None ->
  storeCachedValue key value rev tag w =
  (Ok tt,
   mkWorld (match dataCache w !! cacheKeyOf key rev with
            | Some _ => dataCache w
            | None => <[cacheKeyOf key rev := value]> (dataCache w)
            end)
           (<[cacheKeyOf key rev := value]> (requestStore w))
           (faults w) (fetches w)).
Proof.
  intros Hf. unfold storeCachedValue, bind, requestStore_set, unstable_cache,
    read_requestStore, ret. simpl. rewrite Hf.
  destruct (dataCache w !! cacheKeyOf key rev); [done|].
  by rewrite lookup_insert_eq.
Qed.

Lemma storeCachedValue_fault key value rev tag w e :
  faults w !! cacheKeyOf key rev = Some e ->
  storeCachedValue key value rev tag w =
  (Throw e,
   mkWorld (dataCache w) (<[cacheKeyOf key rev := value]> (requestStore w))
           (faults w) (fetches w)).
Proof.
  intros Hf. unfold storeCachedValue, bind, requestStore_set, unstable_cache.
  simpl. by rewrite Hf.
Qed.

Lemma getCachedValue_run key rev tag w :
  getCachedValue key rev tag w =
  match faults w !! cacheKeyOf key rev with
  | Some _ => (Ok None, w)
  | None =>
      match dataCache w !! cacheKeyOf key rev with
      | Some v => (Ok (Some v), w)
      | None =>
          match requestStore w !! cacheKeyOf key rev with
          | Some v =>
              (Ok (Some v),
               mkWorld (<[cacheKeyOf key rev := v]> (dataCache w)) (requestStore w)
                       (faults w) (fetches w))
          | None => (Ok None, w)
          end
      end
  end.
Proof.
  unfold getCachedValue, try_catch, bind, unstable_cache, read_requestStore, ret.
  destruct (faults w !! cacheKeyOf key rev); [done|].
  destruct (dataCache w !! cacheKeyOf key rev); [done|].
  by destruct (requestStore w !! cacheKeyOf key rev).
Qed.

Lemma retrieveChunk_run key rev w :
  retrieveChunk key rev w = getCachedValue key rev (js "chunk") w.
Proof.
  unfold retrieveChunk, try_catch. rewrite getCachedValue_run.
  destruct (faults w !! _); [done|]. destruct (dataCache w !! _); [done|].
  by destruct (requestStore w !! _).
Qed.

Lemma retrieveMetadata_run key rev w :
  retrieveMetadata key rev w = getCachedValue key rev (js "metadata") w.
Proof.
  unfold retrieveMetadata, try_catch. rewrite getCachedValue_run.
  destruct (faults w !! _); [done|]. destruct (dataCache w !! _); [done|].
  by destruct (requestStore w !! _).
Qed.

(** A retrieval never rejects. *)
Lemma getCachedValue_total key rev tag w :
  exists r w', getCachedValue key rev tag w = (Ok r, w').
Proof.
  rewrite getCachedValue_run.
  destruct (faults w !! _); [eauto|]. destruct (dataCache w !! _); [eauto|].
  destruct (requestStore w !! _); eauto.
Qed.

Lemma Promise_all_cons {A} (p : M A) (ps : list (M A)) w :
  Promise_all (p :: ps) w =
  let (r, w1) := p w in
  let (rs, w2) := Promise_all ps w1 in
  (match r, rs with
   | Ok a, Ok l => Ok (a :: l)
   | Throw e, _ => Throw e
   | (Ok _ | Hang), Throw e => Throw e
   | Ok _, Hang => Hang
   | Hang, (Ok _ | Hang) => Hang
   end, w2).
Proof. done. Qed.

Lemma Promise_all_retrieveChunk_total rev keys w :
  exists rs w',
    Promise_all ((fun chunkKey => retrieveChunk chunkKey rev) <$> keys) w = (Ok rs, w').
Proof.
  revert w. induction keys as [|k keys IH]; intros w; [by eexists _, _|].
  rewrite fmap_cons, Promise_all_cons, retrieveChunk_run.
  destruct (getCachedValue_total k rev (js "chunk") w) as (r & w1 & ->).
  destruct (IH w1) as (rs & w2 & ->). eauto.
Qed.

Lemma getCachedValue_settled key rev tag w :
  settled w ->
  getCachedValue key rev tag w = (Ok (dataCache w !! cacheKeyOf key rev), w).
Proof.
  intros [Hf Hs]. rewrite getCachedValue_run, Hf, lookup_empty.
  destruct (dataCache w !! _) eqn:Hd; [done|]. by rewrite (Hs _ Hd).
Qed.

Lemma Promise_all_retrieveChunk_settled rev keys w :
  settled w ->
  Promise_all ((fun chunkKey => retrieveChunk chunkKey rev) <$> keys) w =
  (Ok ((fun chunkKey => dataCache w !! cacheKeyOf chunkKey rev) <$> keys), w).
Proof.
  intros Hs. induction keys as [|k keys IH]; [done|].
  rewrite !fmap_cons, Promise_all_cons, retrieveChunk_run.
  by rewrite getCachedValue_settled, IH.
Qed.

(** ** Cache keys *)

Lemma uint_units_inj (d1 d2 : Decimal.uint) :
  uint_units d1 = uint_units d2 -> d1 = d2.
Proof.
  revert d2. induction d1; intros []; simpl; intros Heq;
    try discriminate; try done; f_equal; apply IHd1; by injection Heq.
Qed.

Lemma number_to_string_inj (n m : N) :
  number_to_string n = number_to_string m -> n = m.
Proof.
  intros Heq%uint_units_inj.
  by rewrite <- (DecimalN.Unsigned.of_to n), <- (DecimalN.Unsigned.of_to m), Heq.
Qed.

Lemma cacheKeyOf_inj (k1 k2 : jsstring) (rev : N) :
  cacheKeyOf k1 rev = cacheKeyOf k2 rev -> k1 = k2.
Proof. unfold cacheKeyOf. by intros ?%(inj (.++ _)). Qed.

Lemma createChunkKey_inj (prefix : jsstring) (i j : N) :
  createChunkKey prefix i = createChunkKey prefix j -> i = j.
Proof.
  unfold createChunkKey. intros Heq%(inj (_ ++.))%(inj (_ ++.)).
  by apply number_to_string_inj.
Qed.

(** The letter [c] occurs in ["::chunk"] and not in ["metadata::"]. *)
Lemma metadataKey_not_chunkKey (prefix : jsstring) (i : N) :
  metadataKey prefix <> createChunkKey prefix i.
Proof.
  unfold metadataKey, createChunkKey. intros Heq.
  apply (f_equal (count_occ N.eq_dec)) in Heq.
  apply (f_equal (fun f => f 99)) in Heq.
  rewrite !count_occ_app in Heq. simpl in Heq. lia.
Qed.

(** ** Writing a batch of entries *)

Lemma Promise_all_store (rev : N) (kvs : list (jsstring * Cached)) (w : World) :
  (forall kv, kv ∈ kvs -> faults w !! cacheKeyOf kv.1 rev = None) ->
  exists l w',
    Promise_all ((fun kv => storeCachedValue kv.1 kv.2 rev []) <$> kvs) w = (Ok l, w') /\
    faults w' = faults w /\
    fetches w' = fetches w /\
    (forall k v, dataCache w !! k = Some v -> dataCache w' !! k = Some v) /\
    ((forall k, dataCache w !! k = None -> requestStore w !! k = None) ->
     forall k, dataCache w' !! k = None -> requestStore w' !! k = None) /\
    (NoDup ((fun kv => cacheKeyOf kv.1 rev) <$> kvs) ->
     forall kv, kv ∈ kvs -> dataCache w !! cacheKeyOf kv.1 rev = None ->
                dataCache w' !! cacheKeyOf kv.1 rev = Some kv.2).
Proof.
  revert w. induction kvs as [|[key value] kvs IH]; intros w Hfaults.
  { exists [], w. split_and!; try done. intros _ kv Hin. by apply elem_of_nil in Hin. }
  rewrite fmap_cons, Promise_all_cons. simpl fst; simpl snd.
  rewrite storeCachedValue_ok by (apply (Hfaults (key, value)); left).
  set (ck := cacheKeyOf key rev).
  set (w1 := mkWorld _ _ _ _).
  assert (Hmono1 : forall k v, dataCache w !! k = Some v -> dataCache w1 !! k = Some v).
  { intros k v Hk. subst w1. simpl. destruct (dataCache w !! ck) eqn:Hck; [done|].
    rewrite lookup_insert_ne; [done|]. intros <-. congruence. }
  assert (Hhead : dataCache w !! ck = None -> dataCache w1 !! ck = Some value).
  { intros Hck. subst w1. simpl. rewrite Hck. apply lookup_insert_eq. }
  assert (Hother : forall k, k <> ck -> dataCache w1 !! k = dataCache w !! k).
  { intros k Hk. subst w1. simpl. destruct (dataCache w !! ck); [done|].
    by rewrite lookup_insert_ne. }
  destruct (IH w1) as (l & w' & Hrun & Hf & Hn & Hmono & Hsettled & Hfresh).
  { intros kv Hin. apply Hfaults. by right. }
  rewrite Hrun. exists (tt :: l), w'. split_and!; try done.
  - intros k v Hk. by apply Hmono, Hmono1.
  - intros Hs. apply Hsettled. intros k Hk.
    destruct (decide (k = ck)) as [->|Hne].
    + subst w1. simpl in Hk. destruct (dataCache w !! ck) eqn:Hck; [congruence|].
      by rewrite lookup_insert_eq in Hk.
    + subst w1. simpl. rewrite lookup_insert_ne by done.
      apply Hs. by rewrite <- Hother.
  - rewrite fmap_cons. intros [Hnotin Hnodup]%NoDup_cons kv [->|Hin]%elem_of_cons Hnone.
    + by apply Hmono, Hhead.
    + apply Hfresh; [done..|]. rewrite Hother; [done|].
      intros Heq. apply Hnotin. simpl. fold ck. rewrite <- Heq.
      by apply (list_elem_of_fmap_2 (fun kv => cacheKeyOf kv.1 rev)).
Qed.

Lemma Promise_all_store_any (rev : N) (kvs : list (jsstring * Cached)) (w : World) :
  exists r w',
    Promise_all ((fun kv => storeCachedValue kv.1 kv.2 rev []) <$> kvs) w = (r, w') /\
    faults w' = faults w /\
    fetches w' = fetches w /\
    (((exists l, r = Ok l) /\
      forall kv, kv ∈ kvs -> faults w !! cacheKeyOf kv.1 rev = None) \/
     (exists e kv, r = Throw e /\ kv ∈ kvs /\ faults w !! cacheKeyOf kv.1 rev = Some e)).
Proof.
  revert w. induction kvs as [|[key value] kvs IH]; intros w.
  { exists (Ok []), w. split_and!; try done. left. split; [by eexists|].
    intros kv Hin. by apply elem_of_nil in Hin. }
  rewrite fmap_cons, Promise_all_cons. simpl fst; simpl snd.
  destruct (faults w !! cacheKeyOf key rev) as [e|] eqn:Hf.
  - rewrite (storeCachedValue_fault _ _ _ _ _ e Hf).
    set (w1 := mkWorld _ _ _ _).
    destruct (IH w1) as (r & w' & -> & Hfs & Hn & _).
    exists (Throw e), w'. split_and!; try done.
    right. exists e, (key, value). split_and!; [done|by left|done].
  - rewrite (storeCachedValue_ok _ _ _ _ _ Hf).
    set (w1 := mkWorld _ _ _ _).
    destruct (IH w1) as (r & w' & -> & Hfs & Hn & Hcases).
    destruct Hcases as [[[l ->] Hnone]|(e & kv & -> & Hin & Hkv)].
    + exists (Ok (tt :: l)), w'. split_and!; try done.
      left. split; [by eexists|].
      intros kv [->|Hin]%elem_of_cons; [done|]. by apply Hnone.
    + exists (Throw e), w'. split_and!; try done.
      right. exists e, kv. split_and!; [done|by right|done].
Qed.


Lemma written_entries_NoDup (prefix : jsstring) (rev : N) (chunks : list jsstring) :
  NoDup ((fun kv => cacheKeyOf kv.1 rev) <$> written_entries prefix chunks).
Proof.
  unfold written_entries. rewrite fmap_cons, fmap_imap.
  rewrite (imap_seq_0 chunks (fun j => cacheKeyOf (createChunkKey prefix (N.of_nat j)) rev)
            : imap (fun n => (fun kv => cacheKeyOf kv.1 rev)
                             ∘ (fun chunk => (createChunkKey prefix (N.of_nat n), CChunk chunk)))
                   chunks = _).
  apply NoDup_cons. split.
  - intros (j & Heq & _)%list_elem_of_fmap.
    apply cacheKeyOf_inj in Heq. by apply metadataKey_not_chunkKey in Heq.
  - apply NoDup_fmap_2_strong; [|apply NoDup_seq].
    intros i j _ _ Heq%cacheKeyOf_inj%createChunkKey_inj. lia.
Qed.

Lemma written_entries_lookup (prefix : jsstring) (chunks : list jsstring) (i : nat) chunk :
  chunks !! i = Some chunk ->
  (createChunkKey prefix (N.of_nat i), CChunk chunk) ∈ written_entries prefix chunks.
Proof.
  intros Hi. unfold written_entries. right.
  by apply (elem_of_lookup_imap_2
    (fun index chunk => (createChunkKey prefix (N.of_nat index), CChunk chunk)) _ _ i).
Qed.

(** ** Unfolding [storeInCache] and [get] *)

Section Unfold.
Context {Value : Type} `{Json Value}.
Variable prefix : jsstring.
Variable fetchData : nat -> Outcome Value.
Variable rev : N.

Lemma storeInCache_run data chunks text w :
  splitIntoChunks data SAFE_CHUNK_SIZE_BYTES = Ok (chunks, text) ->
  storeInCache prefix rev data w =
  match Promise_all ((fun kv => storeCachedValue kv.1 kv.2 rev [])
                       <$> written_entries prefix chunks) w with
  | (Ok _, w') => (Ok tt, w')
  | (Throw e, w') => (Throw e, w')
  | (Hang, w') => (Hang, w')
  end.
Proof.
  intros Hsplit. unfold storeInCache, bind, lift, ret. rewrite Hsplit.
  unfold written_entries. rewrite fmap_cons, fmap_imap. done.
Qed.

Lemma storeInCache_throws data e w :
  splitIntoChunks data SAFE_CHUNK_SIZE_BYTES = Throw e ->
  storeInCache prefix rev data w = (Throw e, w).
Proof. intros Hsplit. unfold storeInCache, bind, lift. by rewrite Hsplit. Qed.

Lemma get_hit w data n w' :
  retrieveFromCache prefix rev w = (Ok (Some (data, n)), w') ->
  get prefix fetchData rev w = (Ok data, w').
Proof. intros Hr. unfold get, bind. by rewrite Hr. Qed.

Lemma get_miss w w' :
  retrieveFromCache prefix rev w = (Ok None, w') ->
  get prefix fetchData rev w =
  match fetchData (fetches w') with
  | Ok freshData =>
      match storeInCache prefix rev freshData (fetched w') with
      | (Ok _, w'') => (Ok freshData, w'')
      | (Throw e, w'') => (Throw e, w'')
      | (Hang, w'') => (Hang, w'')
      end
  | Throw e => (Throw e, fetched w')
  | Hang => (Hang, fetched w')
  end.
Proof.
  intros Hr. unfold get, bind. rewrite Hr. unfold call_fetchData, fetched.
  by destruct (fetchData (fetches w')).
Qed.

Lemma retrieveFromCache_total w :
  exists r w', retrieveFromCache prefix rev w = (Ok r, w').
Proof.
  unfold retrieveFromCache, bind. rewrite retrieveMetadata_run.
  destruct (getCachedValue_total (metadataKey prefix) rev (js "metadata") w)
    as ([m|] & w1 & ->); [|by eexists _, _].
  destruct (falsy m); [by eexists _, _|].
  match goal with |- context [Promise_all ?ps w1] =>
    destruct (Promise_all_retrieveChunk_total rev
      ((fun i => createChunkKey prefix (N.of_nat i))
         <$> seq 0 (N.to_nat (chunkCount_of m))) w1) as (rs & w2 & ->) end.
  unfold try_catch, bind, lift, reassembleChunks, ret.
  destruct (JSON_parse _); by eexists _, _.
Qed.

Lemma retrieveFromCache_settled w :
  settled w ->
  retrieveFromCache prefix rev w =
  (Ok match dataCache w !! cacheKeyOf (metadataKey prefix) rev with
      | None => None
      | Some metadata =>
          if falsy metadata then None
          else
            match JSON_parse
                    (join (to_string <$> filter_non_null
                       ((fun chunkKey => dataCache w !! cacheKeyOf chunkKey rev)
                          <$> ((fun i => createChunkKey prefix (N.of_nat i))
                                 <$> seq 0 (N.to_nat (chunkCount_of metadata)))))) with
            | Some data => Some (data, chunkCount_of metadata)
            | None => None
            end
      end, w).
Proof.
  intros Hs. unfold retrieveFromCache, bind.
  rewrite retrieveMetadata_run, getCachedValue_settled by done.
  destruct (dataCache w !! _) as [m|]; [|done].
  destruct (falsy m); [done|].
  rewrite Promise_all_retrieveChunk_settled by done.
  unfold try_catch, bind, lift, reassembleChunks, ret.
  by destruct (JSON_parse _).
Qed.
End Unfold.

(** ** A miss that populates the cache, and the hit that follows *)

Lemma collect_present {A B} (f : nat -> option B) (g : A -> B) (l : list A) (j : nat) :
  (forall i a, l !! i = Some a -> f (j + i)%nat = Some (g a)) ->
  filter_non_null (f <$> seq j (length l)) = g <$> l.
Proof.
  revert j. induction l as [|a l IH]; intros j Hf; [done|].
  pose proof (Hf 0%nat a eq_refl) as Hhead. rewrite Nat.add_0_r in Hhead.
  unfold filter_non_null in *. simpl. rewrite Hhead. simpl.
  f_equal. apply IH. intros i a' Hi.
  replace (S j + i)%nat with (j + S i)%nat by lia. by apply Hf.
Qed.

Lemma SAFE_CHUNK_SIZE_BYTES_pos : 0 < SAFE_CHUNK_SIZE_BYTES.
Proof. done. Qed.

Section MissThenHit.
Context {Value : Type} `{Json Value}.
Variable prefix : jsstring.
Variable fetchData : nat -> Outcome Value.
Variable rev : N.

Lemma get_cold_miss w data chunks text :
  dataCache w = ∅ -> requestStore w = ∅ -> faults w = ∅ ->
  fetchData (fetches w) = Ok data ->
  splitIntoChunks data SAFE_CHUNK_SIZE_BYTES = Ok (chunks, text) ->
  exists w1,
    get prefix fetchData rev w = (Ok data, w1) /\
    fetches w1 = S (fetches w) /\
    settled w1 /\
    forall kv, kv ∈ written_entries prefix chunks ->
               dataCache w1 !! cacheKeyOf kv.1 rev = Some kv.2.
Proof.
  intros Hd Hr Hf Hfetch Hsplit.
  assert (Hs : settled w).
  { split; [done|]. intros k _. by rewrite Hr, lookup_empty. }
  rewrite (get_miss prefix fetchData rev w w).
  2:{ rewrite retrieveFromCache_settled by done. by rewrite Hd, lookup_empty. }
  rewrite Hfetch, (storeInCache_run prefix rev data chunks text) by done.
  destruct (Promise_all_store rev (written_entries prefix chunks) (fetched w))
    as (l & w1 & -> & Hf1 & Hn1 & _ & Hsettled & Hfresh).
  { intros kv _. simpl. by rewrite Hf, lookup_empty. }
  exists w1. split_and!; [done|done| |].
  - split; [by rewrite Hf1|]. apply Hsettled. apply Hs.
  - intros kv Hin. apply Hfresh; [apply written_entries_NoDup|done|].
    simpl. by rewrite Hd, lookup_empty.
Qed.

Lemma get_populated_hit w data chunks :
  settled w ->
  (forall kv, kv ∈ written_entries prefix chunks ->
              dataCache w !! cacheKeyOf kv.1 rev = Some kv.2) ->
  JSON_parse (join chunks) = Some data ->
  get prefix fetchData rev w = (Ok data, w).
Proof.
  intros Hs Hentries Hparse.
  apply (get_hit prefix fetchData rev w data (N.of_nat (length chunks))).
  rewrite retrieveFromCache_settled by done.
  pose proof (Hentries (metadataKey prefix, CMeta (N.of_nat (length chunks))))
    as Hmeta.
  simpl in Hmeta. rewrite Hmeta by (by left).
  simpl. rewrite Nat2N.id, <- list_fmap_compose.
  rewrite (collect_present _ CChunk chunks 0).
  - rewrite <- list_fmap_compose.
    replace (to_string ∘ CChunk <$> chunks) with chunks
      by (by rewrite <- (list_fmap_id chunks) at 1).
    by rewrite Hparse.
  - intros i chunk Hi. simpl.
    apply (Hentries (createChunkKey prefix (N.of_nat i), CChunk chunk)).
    by apply written_entries_lookup.
Qed.
End MissThenHit.

(** * The claims *)

(** ** Splitting and reassembly *)

(** C5: for every text and every positive bound, the loop of
    [splitIntoChunks] ends within [text.length] iterations and the chunks it
    produced, joined in index order, are exactly the text; this covers the
    empty text and texts whose length is a multiple of the bound. *)
Theorem split_join_identity (text : jsstring) (B : N) :
  0 < B ->
  exists chunks,
    chunk_loop (length text) text 0 B = Some chunks /\ join chunks = text.
Proof.
  intros HB.
  destruct (chunk_loop_total (length text) text 0 B HB) as [chunks Hc].
  { unfold strlen. lia. }
  exists chunks. split; [done|]. by rewrite (chunk_loop_join _ _ _ _ _ Hc).
Qed.

Lemma split_join_identity_witness :
  exists chunks,
    chunk_loop (length (js "abcdef")) (js "abcdef") 0 3 = Some chunks /\
    join chunks = js "abcdef".
Proof. apply (split_join_identity (js "abcdef") 3). reflexivity. Defined.

Example split_empty_text : chunk_loop 0 [] 0 3 = Some [].
Proof. reflexivity. Qed.

Example split_exact_multiple :
  chunk_loop 6 (js "abcdef") 0 3 = Some [js "abc"; js "def"].
Proof. reflexivity. Qed.

Example split_with_remainder :
  chunk_loop 7 (js "abcdefg") 0 3 = Some [js "abc"; js "def"; js "g"].
Proof. reflexivity. Qed.

(** C4 (amended): for every payload whose JSON text parses back to it and
    every positive bound, encoding, splitting, joining and decoding gives
    the payload back. *)
Theorem split_then_reassemble_roundtrip `{Json Value}
    (P : Value) (B : N) (text : jsstring) :
  0 < B ->
  JSON_stringify P = Ok (Some text) ->
  JSON_parse text = Some P ->
  split_then_reassemble P B = Ok P.
Proof.
  intros HB Htext Hparse.
  destruct (splitIntoChunks_text P B text HB Htext) as (chunks & Hsplit & _ & Hjoin).
  unfold split_then_reassemble, reassembleChunks. by rewrite Hsplit, Hjoin, Hparse.
Qed.

Lemma split_then_reassemble_roundtrip_witness :
  split_then_reassemble (JsString (js "hello world")) 4 = Ok (JsString (js "hello world")).
Proof.
  apply (split_then_reassemble_roundtrip (JsString (js "hello world")) 4
           (34 :: js "hello world" ++ [34])); reflexivity.
Defined.

(** C4 as stated fails: [NaN] is encoded as [null] and comes back as
    [null]. *)
Lemma split_then_reassemble_NaN :
  split_then_reassemble JsNaN SAFE_CHUNK_SIZE_BYTES = Ok JsNull /\
  split_then_reassemble JsNaN SAFE_CHUNK_SIZE_BYTES <> Ok JsNaN.
Proof. split; [reflexivity | discriminate]. Qed.

(** ** The orchestrator *)

Section Orchestrator.
Context {Value : Type} `{Json Value}.
Variable prefix : jsstring.
Variable fetchData : nat -> Outcome Value.
Variable rev : N.

(** C6 (amended): in a fresh process with an empty cache whose calls do
    not fail, when the producer returns a value whose JSON text parses
    back to it, the first [get()] calls the producer exactly once and
    returns its result; a second [get()] on the world the first one left
    returns the same value and calls nothing: the world, and with it the
    count of producer calls, stays as it is. *)
Theorem miss_then_hit (w : World) (data : Value) (text : jsstring) :
  dataCache w = ∅ -> requestStore w = ∅ -> faults w = ∅ ->
  fetchData (fetches w) = Ok data ->
  JSON_stringify data = Ok (Some text) ->
  JSON_parse text = Some data ->
  exists w1,
    get prefix fetchData rev w = (Ok data, w1) /\
    fetches w1 = S (fetches w) /\
    get prefix fetchData rev w1 = (Ok data, w1).
Proof.
  intros Hd Hr Hf Hfetch Htext Hparse.
  destruct (splitIntoChunks_text data SAFE_CHUNK_SIZE_BYTES text
              SAFE_CHUNK_SIZE_BYTES_pos Htext) as (chunks & Hsplit & _ & Hjoin).
  destruct (get_cold_miss prefix fetchData rev w data chunks text)
    as (w1 & Hget & Hn & Hs & Hentries); try done.
  exists w1. split_and!; [done..|].
  apply (get_populated_hit prefix fetchData rev w1 data chunks); try done.
  by rewrite Hjoin.
Qed.

(** C7: when the cache path yields a miss and the producer fails, [get()]
    fails with the producer's error; nothing is written to the cache. *)
Theorem producer_failure_propagates (w w' : World) (e : Exn) :
  retrieveFromCache prefix rev w = (Ok None, w') ->
  fetchData (fetches w') = Throw e ->
  get prefix fetchData rev w = (Throw e, fetched w').
Proof. intros Hmiss Hfetch. by rewrite (get_miss _ _ _ _ _ Hmiss), Hfetch. Qed.

(** C8: when the cache primitive rejects during the retrieval of the
    metadata, whatever the rejection, [retrieveMetadata] returns [null];
    [retrieveFromCache] then returns [null] as well, and [get()] goes on
    with the producer instead of failing. *)
Theorem metadata_failure_is_miss (w w' : World) (e : Exn) :
  unstable_cache (read_requestStore (cacheKeyOf (metadataKey prefix) rev))
                 (cacheKeyOf (metadataKey prefix) rev) w = (Throw e, w') ->
  retrieveMetadata (metadataKey prefix) rev w = (Ok None, w') /\
  retrieveFromCache prefix rev w = (Ok None, w') /\
  get prefix fetchData rev w =
    match fetchData (fetches w') with
    | Ok freshData =>
        match storeInCache prefix rev freshData (fetched w') with
        | (Ok _, w'') => (Ok freshData, w'')
        | (Throw e', w'') => (Throw e', w'')
        | (Hang, w'') => (Hang, w'')
        end
    | Throw e' => (Throw e', fetched w')
    | Hang => (Hang, fetched w')
    end.
Proof.
  intros Hfail.
  assert (Hmeta : retrieveMetadata (metadataKey prefix) rev w = (Ok None, w')).
  { unfold retrieveMetadata, getCachedValue, try_catch, bind. by rewrite Hfail. }
  assert (Hmiss : retrieveFromCache prefix rev w = (Ok None, w')).
  { unfold retrieveFromCache, bind. by rewrite Hmeta. }
  split_and!; [done..|]. by apply get_miss.
Qed.

(** C10: when the cache path yields a miss and the producer returns a
    value for which [JSON.stringify] gives [undefined], [get()] throws the
    TypeError raised in [splitIntoChunks] and does not return the fresh
    value; nothing is written to the cache. *)
Theorem get_rejects_unencodable (w w' : World) (data : Value) :
  retrieveFromCache prefix rev w = (Ok None, w') ->
  fetchData (fetches w') = Ok data ->
  JSON_stringify data = Ok None ->
  get prefix fetchData rev w = (Throw TypeError, fetched w').
Proof.
  intros Hmiss Hfetch Hundef.
  rewrite (get_miss _ _ _ _ _ Hmiss), Hfetch.
  rewrite (storeInCache_throws prefix rev data TypeError); [done|].
  unfold splitIntoChunks. by rewrite Hundef.
Qed.


(** C9 (amended): the metadata record is kept under the key made of the
    literal ["metadata::"], the prefix, a colon and the revalidation time:
    after a store-back into a working cache that has nothing under that
    key, the record with the number of chunks is found there. *)
Theorem metadata_stored_under_key (w : World) (data : Value)
    (chunks : list jsstring) (text : jsstring) :
  splitIntoChunks data SAFE_CHUNK_SIZE_BYTES = Ok (chunks, text) ->
  faults w = ∅ ->
  dataCache w !! (js "metadata::" ++ prefix ++ js ":" ++ number_to_string rev) = None ->
  exists w',
    storeInCache prefix rev data w = (Ok tt, w') /\
    dataCache w' !! (js "metadata::" ++ prefix ++ js ":" ++ number_to_string rev)
      = Some (CMeta (N.of_nat (length chunks))).
Proof.
  assert (cacheKeyOf (metadataKey prefix) rev =
          js "metadata::" ++ prefix ++ js ":" ++ number_to_string rev) as <-.
  { unfold cacheKeyOf, metadataKey. by rewrite <- (assoc_L (++)). }
  intros Hsplit Hf Hfresh.
  rewrite (storeInCache_run prefix rev data chunks text) by done.
  destruct (Promise_all_store rev (written_entries prefix chunks) w)
    as (l & w' & -> & _ & _ & _ & _ & Hwritten).
  { intros kv _. by rewrite Hf, lookup_empty. }
  exists w'. split; [done|].
  apply (Hwritten (written_entries_NoDup prefix rev chunks)
           (metadataKey prefix, CMeta (N.of_nat (length chunks)))); [by left|done].
Qed.
End Orchestrator.

(** ** The claims on concrete runs *)

Lemma miss_then_hit_witness :
  exists w1,
    get (js "k") (fun _ => Ok (JsString (js "hello"))) 3600 emptyWorld
      = (Ok (JsString (js "hello")), w1) /\
    fetches w1 = S (fetches emptyWorld) /\
    get (js "k") (fun _ => Ok (JsString (js "hello"))) 3600 w1
      = (Ok (JsString (js "hello")), w1).
Proof.
  apply (miss_then_hit (js "k") (fun _ => Ok (JsString (js "hello"))) 3600
           emptyWorld (JsString (js "hello")) (34 :: js "hello" ++ [34]));
    reflexivity.
Defined.

(** C6 as stated fails for a producer returning [NaN]: the first [get()]
    returns [NaN], the second one returns [null] from the cache. *)
Lemma miss_then_hit_NaN :
  get (js "k") (fun _ => Ok JsNaN) 3600 emptyWorld
    = (Ok JsNaN, snd (get (js "k") (fun _ => Ok JsNaN) 3600 emptyWorld)) /\
  get (js "k") (fun _ => Ok JsNaN) 3600
      (snd (get (js "k") (fun _ => Ok JsNaN) 3600 emptyWorld))
    = (Ok JsNull, snd (get (js "k") (fun _ => Ok JsNaN) 3600 emptyWorld)) /\
  JsNull <> JsNaN.
Proof. split_and!; [vm_compute; reflexivity | vm_compute; reflexivity | discriminate]. Qed.

Lemma producer_failure_propagates_witness :
  get (js "k") (fun _ => @Throw JsValue (Error (js "upstream down"))) 3600 emptyWorld
    = (Throw (Error (js "upstream down")), fetched emptyWorld).
Proof.
  apply (producer_failure_propagates (js "k")
           (fun _ => @Throw JsValue (Error (js "upstream down"))) 3600
           emptyWorld emptyWorld (Error (js "upstream down")));
    vm_compute; reflexivity.
Defined.

Lemma metadata_failure_is_miss_witness :
  let w := mkWorld ∅ ∅ {[cacheKeyOf (metadataKey (js "k")) 3600 := SyntaxError]} 0 in
  retrieveMetadata (metadataKey (js "k")) 3600 w = (Ok None, w) /\
  @retrieveFromCache JsValue _ (js "k") 3600 w = (Ok None, w) /\
  get (js "k") (fun _ => Ok (JsString (js "hello"))) 3600 w =
    match storeInCache (js "k") 3600 (JsString (js "hello")) (fetched w) with
    | (Ok _, w'') => (Ok (JsString (js "hello")), w'')
    | (Throw e', w'') => (Throw e', w'')
    | (Hang, w'') => (Hang, w'')
    end.
Proof.
  intros w.
  apply (metadata_failure_is_miss (js "k") (fun _ => Ok (JsString (js "hello"))) 3600
           w w SyntaxError).
  vm_compute; reflexivity.
Defined.

Lemma get_rejects_unencodable_witness :
  get (js "k") (fun _ => Ok JsUndefined) 3600 emptyWorld
    = (Throw TypeError, fetched emptyWorld).
Proof.
  apply (get_rejects_unencodable (js "k") (fun _ => Ok JsUndefined) 3600
           emptyWorld emptyWorld JsUndefined); vm_compute; reflexivity.
Defined.



Lemma metadata_stored_under_key_witness :
  exists w',
    storeInCache (js "p") 3600 (JsString (js "hello")) emptyWorld = (Ok tt, w') /\
    dataCache w' !! (js "metadata::" ++ js "p" ++ js ":" ++ number_to_string 3600)
      = Some (CMeta (N.of_nat (length [34 :: js "hello" ++ [34]]))).
Proof.
  apply (metadata_stored_under_key (js "p") 3600 emptyWorld (JsString (js "hello"))
           [34 :: js "hello" ++ [34]] (34 :: js "hello" ++ [34]));
    vm_compute; reflexivity.
Defined.

(** C9 as stated fails: for the prefix [p] the key is not [p:metadata];
    after a store-back nothing is kept under [p:metadata], with or without
    the revalidation time, and the record is under [metadata::p:3600]. *)
Lemma metadata_key_is_not_suffixed :
  let w' := snd (storeInCache (js "p") 3600 (JsString (js "hello")) emptyWorld) in
  metadataKey (js "p") <> js "p" ++ js ":metadata" /\
  dataCache w' !! (js "p" ++ js ":metadata") = None /\
  dataCache w' !! (js "p" ++ js ":metadata" ++ js ":3600") = None /\
  dataCache w' !! js "metadata::p:3600" = Some (CMeta 1).
Proof. intros w'. split_and!; [discriminate | vm_compute; reflexivity ..]. Qed.

(** ** Chunks of a text made of full blocks *)

Lemma chunk_loop_shift (fuel : nat) (c rest : jsstring) (k i B : N) :
  length c = N.to_nat k ->
  chunk_loop fuel (c ++ rest) (k + i) B = chunk_loop fuel rest i B.
Proof.
  intros Hc. revert i. induction fuel as [|fuel IH]; intros i;
    rewrite (chunk_loop_unfold _ (c ++ rest)), (chunk_loop_unfold _ rest);
    assert ((k + i <? strlen (c ++ rest)) = (i <? strlen rest)) as ->
      by (rewrite strlen_app; unfold strlen at 1; rewrite Hc, N2Nat.id;
          destruct (N.ltb_spec (k + i) (k + strlen rest)),
                   (N.ltb_spec i (strlen rest)); lia || done);
    [done|].
  destruct (i <? strlen rest); [|done].
  replace (k + i + B) with (k + (i + B)) by lia. rewrite IH.
  assert (slice (c ++ rest) (k + i) (k + (i + B)) = slice rest i (i + B)) as ->; [|done].
  replace (k + (i + B)) with (k + i + B) by lia. rewrite !slice_take_drop.
  replace (N.to_nat (k + i)) with (length c + N.to_nat i)%nat by lia.
  by rewrite drop_app_add.
Qed.

Lemma chunk_loop_cons (fuel : nat) (c rest : jsstring) (B : N) :
  0 < B -> length c = N.to_nat B ->
  chunk_loop (S fuel) (c ++ rest) 0 B =
  match chunk_loop fuel rest 0 B with
  | Some chunks => Some (c :: chunks)
  | None => None
  end.
Proof.
  intros HB Hc. rewrite chunk_loop_unfold.
  assert ((0 <? strlen (c ++ rest)) = true) as ->.
  { apply N.ltb_lt. rewrite strlen_app. unfold strlen. lia. }
  rewrite slice_take_drop. change (N.to_nat 0) with 0%nat. rewrite drop_0.
  rewrite take_app_length' by done.
  replace (0 + B) with (B + 0) by lia. by rewrite chunk_loop_shift.
Qed.

Lemma chunk_loop_last (fuel : nat) (c : jsstring) (B : N) :
  c <> [] -> (length c <= N.to_nat B)%nat ->
  chunk_loop (S fuel) c 0 B = Some [c].
Proof.
  intros Hne Hc. rewrite chunk_loop_unfold.
  assert ((0 <? strlen c) = true) as ->.
  { apply N.ltb_lt. unfold strlen. destruct c; [done|simpl; lia]. }
  rewrite slice_take_drop. change (N.to_nat 0) with 0%nat. rewrite drop_0.
  rewrite take_ge by done. rewrite chunk_loop_unfold.
  assert ((0 + B <? strlen c) = false) as ->; [|done].
  apply N.ltb_ge. unfold strlen. lia.
Qed.

Lemma chunk_loop_three (c0 c1 c2 : jsstring) (B : N) :
  0 < B ->
  length c0 = N.to_nat B -> length c1 = N.to_nat B -> length c2 = N.to_nat B ->
  chunk_loop (length (c0 ++ c1 ++ c2)) (c0 ++ c1 ++ c2) 0 B = Some [c0; c1; c2].
Proof.
  intros HB H0 H1 H2.
  rewrite (chunk_loop_fuel _ 3) by
    (try done; unfold strlen; rewrite !length_app, H0, H1, H2; nia).
  rewrite chunk_loop_cons, chunk_loop_cons, chunk_loop_last; try done.
  - intros ->. simpl in H2. lia.
  - lia.
Qed.

(** The first chunk of a text that is not empty. *)
Lemma chunk_loop_head (text : jsstring) (B : N) :
  0 < B -> text <> [] ->
  exists rest,
    chunk_loop (length text) text 0 B = Some (take (N.to_nat B) text :: rest).
Proof.
  intros HB Hne. destruct text as [|c text]; [done|].
  change (length (c :: text)) with (S (length text)).
  rewrite chunk_loop_unfold.
  assert ((0 <? strlen (c :: text)) = true) as -> by (apply N.ltb_lt; unfold strlen; simpl; lia).
  destruct (chunk_loop_total (length text) (c :: text) (0 + B) B HB) as [rest ->].
  { unfold strlen. simpl. lia. }
  exists rest. rewrite slice_take_drop. by change (N.to_nat 0) with 0%nat.
Qed.

(** ** Strings of one plain character in the scalar instance *)

Lemma quote_units_plain (c : N) (n : nat) :
  32 <= c -> c <> 34 -> c <> 92 -> c < 55296 ->
  quote_units (replicate n c) = replicate n c.
Proof.
  intros H32 H34 H92 Hs. induction n as [|n IH]; [done|].
  rewrite replicate_S. cbn [quote_units].
  repeat match goal with
         | |- context [N.eqb c ?k] => destruct (N.eqb_spec c k); [lia|]
         end.
  destruct (N.ltb_spec c 32); [lia|].
  unfold is_high_surrogate, is_low_surrogate.
  destruct (N.leb_spec 55296 c); [lia|]. destruct (N.leb_spec 56320 c); [lia|].
  simpl. by rewrite IH.
Qed.

Lemma parse_string_body_plain (c : N) (n : nat) (after : jsstring) :
  32 <= c -> c <> 34 -> c <> 92 ->
  parse_string_body (replicate n c ++ 34 :: after) = Some (replicate n c, after).
Proof.
  intros H32 H34 H92. induction n as [|n IH]; [done|].
  rewrite replicate_S. cbn [app parse_string_body].
  destruct (N.eqb_spec c 34); [lia|]. destruct (N.eqb_spec c 92); [lia|].
  destruct (N.ltb_spec c 32); [lia|]. by rewrite IH.
Qed.

Lemma parse_plain_string (c : N) (n : nat) :
  32 <= c -> c <> 34 -> c <> 92 ->
  parse (34 :: replicate n c ++ [34]) = Some (JsString (replicate n c)).
Proof.
  intros H32 H34 H92. unfold parse. cbn [skip_whitespace].
  change (is_json_whitespace 34) with false. cbv iota.
  change (34 =? 34) with true. cbv iota.
  by rewrite (parse_string_body_plain c n []).
Qed.

Lemma utf8_length_two_byte (c : N) (n : nat) :
  128 <= c -> c < 2048 ->
  utf8_length (replicate n c) = 2 * N.of_nat n.
Proof.
  intros Hlo Hhi. induction n as [|n IH]; [done|].
  rewrite replicate_S. cbn [utf8_length].
  destruct (N.ltb_spec c 128); [lia|]. destruct (N.ltb_spec c 2048); [|lia].
  rewrite IH. lia.
Qed.

(** ** The scalar instance reads back what it writes *)

Lemma unhex_hex_digit (d : N) : d < 16 -> unhex (hex_digit d) = Some d.
Proof.
  intros Hd. unfold unhex, hex_digit.
  destruct (N.ltb_spec d 10).
  - destruct (N.leb_spec 48 (48 + d)); [|lia].
    destruct (N.leb_spec (48 + d) 57); [|lia]. simpl. f_equal. lia.
  - destruct (N.leb_spec (87 + d) 57); [lia|]. rewrite andb_false_r.
    destruct (N.leb_spec 97 (87 + d)); [|lia].
    destruct (N.leb_spec (87 + d) 102); [|lia]. simpl. f_equal. lia.
Qed.

Lemma hex_digits_value (c : N) :
  4096 * (c / 4096) + 256 * ((c / 256) mod 16) + 16 * ((c / 16) mod 16) + c mod 16 = c.
Proof. zify. Z.to_euclidean_division_equations. lia. Qed.

Lemma parse_unicode_escape (c : N) (rest : jsstring) :
  c < 65536 ->
  parse_string_body (unicode_escape c ++ rest) =
  match parse_string_body rest with
  | Some (body, after) => Some (c :: body, after)
  | None => None
  end.
Proof.
  intros Hc. unfold unicode_escape. cbn [app parse_string_body].
  change (92 =? 34) with false. change (92 =? 92) with true.
  change (117 =? 117) with true. cbv iota.
  rewrite !unhex_hex_digit.
  - rewrite hex_digits_value. done.
  - apply N.mod_lt. lia.
  - apply N.mod_lt. lia.
  - apply N.mod_lt. lia.
  - apply N.Div0.div_lt_upper_bound; lia.
Qed.

Lemma parse_quote_units (s after : jsstring) :
  parse_string_body (quote_units s ++ 34 :: after) = Some (s, after).
Proof.
  remember (length s) as n eqn:Hn. revert s Hn.
  induction n as [n IH] using lt_wf_ind. intros [|c rest] Hn; [done|].
  simpl in Hn.
  assert (IHrest : parse_string_body (quote_units rest ++ 34 :: after) = Some (rest, after))
    by (apply (IH (length rest)); [lia|done]).
  cbn [quote_units].
  repeat match goal with
         | |- context [N.eqb c ?k] =>
             destruct (N.eqb_spec c k) as [->|?];
             [cbn [app parse_string_body]; simpl; by rewrite IHrest|]
         end.
  destruct (N.ltb_spec c 32).
  { rewrite <- (assoc_L (++)), parse_unicode_escape by lia. by rewrite IHrest. }
  destruct (is_high_surrogate c) eqn:Hhigh.
  { unfold is_high_surrogate in Hhigh. apply andb_true_iff in Hhigh as [H1%N.leb_le H2%N.leb_le].
    destruct rest as [|d rest'].
    - rewrite parse_unicode_escape by lia. done.
    - destruct (is_low_surrogate d) eqn:Hlow.
      + unfold is_low_surrogate in Hlow. apply andb_true_iff in Hlow as [H3%N.leb_le H4%N.leb_le].
        cbn [app parse_string_body].
        destruct (N.eqb_spec c 34); [lia|]. destruct (N.eqb_spec c 92); [lia|].
        destruct (N.ltb_spec c 32); [lia|].
        destruct (N.eqb_spec d 34); [lia|]. destruct (N.eqb_spec d 92); [lia|].
        destruct (N.ltb_spec d 32); [lia|].
        rewrite (IH (length rest')); [done|simpl in Hn; lia|done].
      + rewrite <- (assoc_L (++)), parse_unicode_escape by lia. by rewrite IHrest. }
  destruct (is_low_surrogate c) eqn:Hlow.
  { unfold is_low_surrogate in Hlow. apply andb_true_iff in Hlow as [H3%N.leb_le H4%N.leb_le].
    rewrite <- (assoc_L (++)), parse_unicode_escape by lia. by rewrite IHrest. }
  cbn [app parse_string_body].
  destruct (N.eqb_spec c 34); [lia|]. destruct (N.eqb_spec c 92); [lia|].
  destruct (N.ltb_spec c 32); [lia|]. by rewrite IHrest.
Qed.

(** Every scalar other than [undefined] and [NaN] has a JSON text, and the
    text parses back to it. *)
Lemma scalar_roundtrip (v : JsValue) :
  v <> JsUndefined -> v <> JsNaN ->
  exists text, JSON_stringify v = Ok (Some text) /\ JSON_parse text = Some v.
Proof.
  intros Hu Hn. destruct v as [| |[]| |s]; try done; try (by eexists).
  exists (34 :: quote_units s ++ [34]). split; [done|].
  cbn [JSON_parse JsValue_Json]. unfold parse. cbn [skip_whitespace].
  change (is_json_whitespace 34) with false. cbv iota.
  change (34 =? 34) with true. cbv iota.
  by rewrite parse_quote_units.
Qed.

(** ** Losing one chunk of three *)

Section PartialLoss.
Context {Value : Type} `{Json Value}.
Variable prefix : jsstring.
Variable fetchData : nat -> Outcome Value.
Variable rev : N.

(** Three chunks were written; the entry of chunk 1 is evicted and the
    next request is served by a new process.  When the other two chunks
    happen to join into a text that parses, [get()] returns the value of
    that text and the producer is not called. *)
Lemma middle_chunk_lost (w1 : World) (c0 c1 c2 : jsstring) (data' : Value) :
  (forall kv, kv ∈ written_entries prefix [c0; c1; c2] ->
              dataCache w1 !! cacheKeyOf kv.1 rev = Some kv.2) ->
  JSON_parse (join [c0; c2]) = Some data' ->
  let w2 := mkWorld (delete (cacheKeyOf (createChunkKey prefix 1) rev) (dataCache w1))
                    ∅ ∅ (fetches w1) in
  retrieveChunk (createChunkKey prefix 1) rev w2 = (Ok None, w2) /\
  get prefix fetchData rev w2 = (Ok data', w2).
Proof.
  intros Hentries Hparse w2.
  assert (Hs : settled w2) by (split; [done|intros; apply lookup_empty]).
  assert (Hmeta : dataCache w2 !! cacheKeyOf (metadataKey prefix) rev = Some (CMeta 3)).
  { subst w2. cbn [dataCache]. rewrite lookup_delete_ne.
    - apply (Hentries (metadataKey prefix, CMeta 3)). by left.
    - intros Heq%cacheKeyOf_inj. symmetry in Heq.
      by apply metadataKey_not_chunkKey in Heq. }
  assert (H0 : dataCache w2 !! cacheKeyOf (createChunkKey prefix (N.of_nat 0)) rev
               = Some (CChunk c0)).
  { subst w2. cbn [dataCache]. rewrite lookup_delete_ne.
    - apply (Hentries (createChunkKey prefix (N.of_nat 0), CChunk c0)).
      by apply written_entries_lookup.
    - by intros Heq%cacheKeyOf_inj%createChunkKey_inj. }
  assert (H1 : dataCache w2 !! cacheKeyOf (createChunkKey prefix (N.of_nat 1)) rev = None).
  { subst w2. cbn [dataCache]. apply lookup_delete_eq. }
  assert (H2 : dataCache w2 !! cacheKeyOf (createChunkKey prefix (N.of_nat 2)) rev
               = Some (CChunk c2)).
  { subst w2. cbn [dataCache]. rewrite lookup_delete_ne.
    - apply (Hentries (createChunkKey prefix (N.of_nat 2), CChunk c2)).
      by apply written_entries_lookup.
    - by intros Heq%cacheKeyOf_inj%createChunkKey_inj. }
  split.
  - rewrite retrieveChunk_run, getCachedValue_settled by done.
    by rewrite (H1 : dataCache w2 !! cacheKeyOf (createChunkKey prefix 1) rev = None).
  - apply (get_hit prefix fetchData rev w2 data' 3).
    rewrite retrieveFromCache_settled by done. rewrite Hmeta.
    cbn [falsy chunkCount_of].
    change (seq 0 (N.to_nat 3)) with [0; 1; 2]%nat.
    rewrite <- list_fmap_compose, !fmap_cons, fmap_nil.
    cbn [compose]. rewrite H0, H1, H2.
    change (join (to_string <$> filter_non_null [Some (CChunk c0); None; Some (CChunk c2)]))
      with (join [c0; c2]).
    by rewrite Hparse.
Qed.
End PartialLoss.

Lemma Promise_all_length {A} (ps : list (M A)) (w w' : World) (l : list A) :
  Promise_all ps w = (Ok l, w') -> length l = length ps.
Proof.
  revert w w' l. induction ps as [|p ps IH]; intros w w' l.
  - by intros [= <- _].
  - rewrite Promise_all_cons. destruct (p w) as [r w1].
    destruct (Promise_all ps w1) as [rs w2] eqn:Hrs.
    destruct r, rs; intros [= <- _]. simpl. by rewrite (IH _ _ _ Hrs).
Qed.

Lemma filter_non_null_length {A} (chunks : list (option A)) :
  None ∈ chunks -> (length (filter_non_null chunks) < length chunks)%nat.
Proof.
  assert (Hle : forall l : list (option A), (length (filter_non_null l) <= length l)%nat).
  { unfold filter_non_null. induction l as [|[a|] l IH]; simpl; [lia| |];
      change (list_omap (option A) A id l) with (omap id l); lia. }
  induction chunks as [|[a|] chunks IH]; intros Hin.
  - by apply elem_of_nil in Hin.
  - apply elem_of_cons in Hin as [|Hin]; [done|].
    unfold filter_non_null in *. simpl. specialize (IH Hin).
    change (list_omap (option A) A id chunks) with (omap id chunks). lia.
  - unfold filter_non_null in *. simpl. specialize (Hle chunks).
    change (list_omap (option A) A id chunks) with (omap id chunks). lia.
Qed.

(** In [src/unnamed/part_000] a missing chunk makes the retrieval a miss:
    the count of retrieved chunks is compared with the metadata. *)
Lemma part000_missing_chunk_is_miss `{Json Value}
    (retrieveMetadata : jsstring -> N -> M (option N))
    (retrieveChunk : jsstring -> N -> M (option jsstring))
    (prefix : jsstring) (rev : N) (w w1 w2 : World) (n : N)
    (chunks : list (option jsstring)) :
  retrieveMetadata (metadataKey prefix) rev w = (Ok (Some n), w1) ->
  Promise_all ((fun chunkKey => retrieveChunk chunkKey rev)
                 <$> ((fun i => createChunkKey prefix (N.of_nat i))
                        <$> seq 0 (N.to_nat n))) w1 = (Ok chunks, w2) ->
  None ∈ chunks ->
  Part000.retrieveFromCache (Value := Value) retrieveMetadata retrieveChunk prefix rev w
    = (Ok None, w2).
Proof.
  intros Hmeta Hall Hnone.
  unfold Part000.retrieveFromCache, bind. rewrite Hmeta, Hall.
  pose proof (Promise_all_length _ _ _ _ Hall) as Hlen.
  rewrite !length_fmap, length_seq in Hlen.
  pose proof (filter_non_null_length chunks Hnone) as Hlt.
  destruct (N.eqb_spec (N.of_nat (length (filter_non_null chunks))) n); [lia|done].
Qed.

(** ** Partial loss and the byte bound, at the size the module uses *)

(** C1, on the code of [src/lib/chunkedCache.ts]: the producer returns the
    string of 3 * 1500000 - 2 letters [a].  The first [get()] on an empty
    cache stores it as three chunks.  Chunk 1 is then evicted and the next
    request is served by a new process: the retrieval of chunk 1 returns
    [null], and [get()] returns the string of 2 * 1500000 - 2 letters [a],
    reassembled from chunks 0 and 2, without calling the producer (the world
    is unchanged). *)
Theorem lost_middle_chunk_served_from_cache (prefix : jsstring) (rev : N) :
  let n := N.to_nat SAFE_CHUNK_SIZE_BYTES in
  let payload := JsString (replicate (3 * n - 2)%nat 97) in
  let fetchData := fun _ : nat => Ok payload in
  exists w1,
    get prefix fetchData rev emptyWorld = (Ok payload, w1) /\
    dataCache w1 !! cacheKeyOf (metadataKey prefix) rev = Some (CMeta 3) /\
    dataCache w1 !! cacheKeyOf (createChunkKey prefix 1) rev
      = Some (CChunk (replicate n 97)) /\
    let w2 := mkWorld (delete (cacheKeyOf (createChunkKey prefix 1) rev) (dataCache w1))
                      ∅ ∅ (fetches w1) in
    retrieveChunk (createChunkKey prefix 1) rev w2 = (Ok None, w2) /\
    get prefix fetchData rev w2 = (Ok (JsString (replicate (2 * n - 2)%nat 97)), w2) /\
    JsString (replicate (2 * n - 2)%nat 97) <> payload.
Proof.
  intros n.
  assert (HnB : N.to_nat SAFE_CHUNK_SIZE_BYTES = n) by done.
  assert (Hn : (1 <= n)%nat) by (subst n; unfold SAFE_CHUNK_SIZE_BYTES; lia).
  clearbody n. intros payload fetchData.
  set (c0 := 34 :: replicate (n - 1)%nat 97).
  set (c1 := replicate n 97 : jsstring).
  set (c2 := replicate (n - 1)%nat 97 ++ [34]).
  assert (Htext : JSON_stringify payload = Ok (Some (c0 ++ c1 ++ c2))).
  { subst payload c0 c1 c2. cbn [JSON_stringify JsValue_Json stringify].
    rewrite quote_units_plain by lia.
    replace (3 * n - 2)%nat with ((n - 1) + (n + (n - 1)))%nat by lia.
    rewrite !replicate_add. simpl. by rewrite <- !(assoc_L (++)). }
  assert (Hsplit : splitIntoChunks payload SAFE_CHUNK_SIZE_BYTES
                   = Ok ([c0; c1; c2], c0 ++ c1 ++ c2)).
  { unfold splitIntoChunks. rewrite Htext, chunk_loop_three; try done.
    - subst c0. simpl. rewrite length_replicate. lia.
    - subst c1. rewrite length_replicate. lia.
    - subst c2. rewrite length_app, length_replicate. simpl. lia. }
  destruct (get_cold_miss prefix fetchData rev emptyWorld payload [c0; c1; c2]
              (c0 ++ c1 ++ c2)) as (w1 & Hget & _ & _ & Hentries); try done.
  exists w1. split_and!; [done| | |].
  - apply (Hentries (metadataKey prefix, CMeta 3)). by left.
  - apply (Hentries (createChunkKey prefix (N.of_nat 1), CChunk c1)).
    by apply written_entries_lookup.
  - intros w2.
    destruct (middle_chunk_lost prefix fetchData rev w1 c0 c1 c2
                (JsString (replicate (2 * n - 2)%nat 97)) Hentries) as [Habsent Hhit].
    + subst c0 c2. cbn [JSON_parse JsValue_Json join concat].
      rewrite app_nil_r.
      replace (2 * n - 2)%nat with ((n - 1) + (n - 1))%nat by lia.
      rewrite replicate_add. cbn [app]. rewrite (assoc_L (++)).
      rewrite <- replicate_add. by apply parse_plain_string.
    + split_and!; [done..|].
      subst payload. intros [= Heq]. apply (f_equal length) in Heq.
      rewrite !length_replicate in Heq. lia.
Qed.

(** C2, on the code: for the string of 1500000 letters [é] (U+00E9) the
    first chunk has 1500000 code units and its UTF-8 encoding, as
    [TextEncoder] measures it, has 2999999 bytes, more than the bound of
    1500000 named in bytes. *)
Theorem first_chunk_exceeds_byte_bound :
  let n := N.to_nat SAFE_CHUNK_SIZE_BYTES in
  exists chunk rest text,
    splitIntoChunks (JsString (replicate n 233)) SAFE_CHUNK_SIZE_BYTES
      = Ok (chunk :: rest, text) /\
    strlen chunk = SAFE_CHUNK_SIZE_BYTES /\
    utf8_length chunk = 2999999 /\
    SAFE_CHUNK_SIZE_BYTES < utf8_length chunk.
Proof.
  intros n.
  assert (HnB : N.of_nat n = SAFE_CHUNK_SIZE_BYTES) by (subst n; apply N2Nat.id).
  assert (HBn : N.to_nat SAFE_CHUNK_SIZE_BYTES = n) by done.
  assert (HB : SAFE_CHUNK_SIZE_BYTES = 1500000) by done.
  destruct n as [|m]; [by rewrite <- HnB in HB|].
  set (text := 34 :: replicate (S m) 233 ++ [34]).
  assert (Htext : JSON_stringify (JsString (replicate (S m) 233)) = Ok (Some text)).
  { cbn [JSON_stringify JsValue_Json stringify]. by rewrite quote_units_plain by lia. }
  destruct (chunk_loop_head text SAFE_CHUNK_SIZE_BYTES SAFE_CHUNK_SIZE_BYTES_pos)
    as [rest Hloop]; [done|].
  assert (Hchunk : take (N.to_nat SAFE_CHUNK_SIZE_BYTES) text = 34 :: replicate m 233).
  { rewrite HBn. subst text. cbn [take]. f_equal.
    rewrite take_app_le by (rewrite length_replicate; lia).
    rewrite take_replicate. f_equal. lia. }
  rewrite Hchunk in Hloop.
  assert (Hbytes : utf8_length (34 :: replicate m 233) = 2999999).
  { cbn [utf8_length]. change (34 <? 128) with true. cbv iota.
    rewrite utf8_length_two_byte by lia. lia. }
  exists (34 :: replicate m 233), rest, text. split_and!.
  - unfold splitIntoChunks. by rewrite Htext, Hloop.
  - unfold strlen. simpl. rewrite length_replicate. lia.
  - done.
  - rewrite Hbytes. by rewrite HB.
Qed.

Example split_counts_code_units_not_bytes :
  splitIntoChunks (JsString [233; 233; 233]) 2
    = Ok ([[34; 233]; [233; 233]; [34]], [34; 233; 233; 233; 34]) /\
  utf8_length [233; 233] = 4.
Proof. split; reflexivity. Qed.

(** * Further properties of the code *)

(** ** What one write and one retrieval do to the world *)

Lemma storeCachedValue_effect key value rev tag w :
  exists r w1,
    storeCachedValue key value rev tag w = (r, w1) /\
    faults w1 = faults w /\
    fetches w1 = fetches w /\
    (forall k v, dataCache w !! k = Some v -> dataCache w1 !! k = Some v) /\
    (forall k, k <> cacheKeyOf key rev -> dataCache w1 !! k = dataCache w !! k) /\
    (forall k, is_Some (faults w !! k) -> dataCache w1 !! k = dataCache w !! k) /\
    (faults w !! cacheKeyOf key rev = None ->
     r = Ok tt /\
     (dataCache w !! cacheKeyOf key rev = None ->
      dataCache w1 !! cacheKeyOf key rev = Some value)) /\
    (forall e, faults w !! cacheKeyOf key rev = Some e -> r = Throw e).
Proof.
  destruct (faults w !! cacheKeyOf key rev) as [e|] eqn:Hf.
  - rewrite (storeCachedValue_fault _ _ _ _ _ e Hf).
    eexists _, _. split; [done|]. simpl. split_and!; try done.
    by intros e' [= ->].
  - rewrite (storeCachedValue_ok _ _ _ _ _ Hf).
    eexists _, _. split; [done|]. simpl.
    destruct (dataCache w !! cacheKeyOf key rev) eqn:Hd; split_and!; try done.
    + intros k v Hk. rewrite lookup_insert_ne; [done|]. intros <-. congruence.
    + intros k Hk. by rewrite lookup_insert_ne.
    + intros k [e He]. rewrite lookup_insert_ne; [done|]. intros <-. congruence.
    + intros _. split; [done|]. intros _. apply lookup_insert_eq.
Qed.

Lemma Promise_all_store_gen (rev : N) (kvs : list (jsstring * Cached)) (w : World) :
  exists r w',
    Promise_all ((fun kv => storeCachedValue kv.1 kv.2 rev []) <$> kvs) w = (r, w') /\
    faults w' = faults w /\
    fetches w' = fetches w /\
    (forall k v, dataCache w !! k = Some v -> dataCache w' !! k = Some v) /\
    (forall k, k ∉ (fun kv => cacheKeyOf kv.1 rev) <$> kvs ->
               dataCache w' !! k = dataCache w !! k) /\
    (forall k, is_Some (faults w !! k) -> dataCache w' !! k = dataCache w !! k) /\
    (NoDup ((fun kv => cacheKeyOf kv.1 rev) <$> kvs) ->
     forall kv, kv ∈ kvs ->
       faults w !! cacheKeyOf kv.1 rev = None ->
       dataCache w !! cacheKeyOf kv.1 rev = None ->
       dataCache w' !! cacheKeyOf kv.1 rev = Some kv.2).
Proof.
  revert w. induction kvs as [|[key value] kvs IH]; intros w.
  { exists (Ok []), w. split_and!; try done. intros _ kv Hin. by apply elem_of_nil in Hin. }
  rewrite fmap_cons, Promise_all_cons. simpl fst; simpl snd.
  destruct (storeCachedValue_effect key value rev [] w)
    as (r1 & w1 & -> & Hf1 & Hn1 & Hmono1 & Hframe1 & Hfault1 & Hok1 & _).
  destruct (IH w1) as (rs & w' & -> & Hf & Hn & Hmono & Hframe & Hfault & Hfresh).
  eexists _, w'. split; [done|]. split_and!.
  - congruence.
  - congruence.
  - intros k v Hk. by apply Hmono, Hmono1.
  - intros k Hk. rewrite fmap_cons in Hk. apply not_elem_of_cons in Hk as [Hne Hk].
    rewrite Hframe by done. by apply Hframe1.
  - intros k Hk. rewrite Hfault by (by rewrite Hf1). by apply Hfault1.
  - rewrite fmap_cons. intros [Hnotin Hnodup]%NoDup_cons kv [->|Hin]%elem_of_cons Hnf Hnone.
    + simpl in *. apply Hmono. by apply Hok1.
    + apply Hfresh; [done|done|by rewrite Hf1|]. rewrite Hframe1; [done|].
      intros Heq. apply Hnotin. simpl. rewrite <- Heq.
      by apply (list_elem_of_fmap_2 (fun kv => cacheKeyOf kv.1 rev)).
Qed.

Lemma getCachedValue_effect key rev tag w :
  exists r w1,
    getCachedValue key rev tag w = (Ok r, w1) /\
    faults w1 = faults w /\
    fetches w1 = fetches w /\
    (forall k v, dataCache w !! k = Some v -> dataCache w1 !! k = Some v).
Proof.
  rewrite getCachedValue_run.
  destruct (faults w !! _); [by eexists _, _|].
  destruct (dataCache w !! cacheKeyOf key rev) eqn:Hd; [by eexists _, _|].
  destruct (requestStore w !! _); [|by eexists _, _].
  eexists _, _. split; [done|]. simpl. split_and!; try done.
  intros k v Hk. rewrite lookup_insert_ne; [done|]. intros <-. congruence.
Qed.

Lemma Promise_all_retrieveChunk_effect rev keys w :
  exists rs w',
    Promise_all ((fun chunkKey => retrieveChunk chunkKey rev) <$> keys) w = (Ok rs, w') /\
    faults w' = faults w /\
    fetches w' = fetches w /\
    (forall k v, dataCache w !! k = Some v -> dataCache w' !! k = Some v).
Proof.
  revert w. induction keys as [|key keys IH]; intros w; [by eexists _, _|].
  rewrite fmap_cons, Promise_all_cons, retrieveChunk_run.
  destruct (getCachedValue_effect key rev (js "chunk") w) as (r & w1 & -> & Hf1 & Hn1 & Hm1).
  destruct (IH w1) as (rs & w2 & -> & Hf2 & Hn2 & Hm2).
  eexists _, _. split; [done|]. split_and!; [congruence..|].
  intros k v Hk. by apply Hm2, Hm1.
Qed.

Section Effects.
Context {Value : Type} `{Json Value}.
Variable prefix : jsstring.
Variable fetchData : nat -> Outcome Value.
Variable rev : N.

Lemma retrieveFromCache_effect w :
  exists r w',
    retrieveFromCache prefix rev w = (Ok r, w') /\
    faults w' = faults w /\
    fetches w' = fetches w /\
    (forall k v, dataCache w !! k = Some v -> dataCache w' !! k = Some v).
Proof.
  unfold retrieveFromCache, bind. rewrite retrieveMetadata_run.
  destruct (getCachedValue_effect (metadataKey prefix) rev (js "metadata") w)
    as ([m|] & w1 & -> & Hf1 & Hn1 & Hm1); [|by eexists _, _].
  destruct (falsy m); [by eexists _, _|].
  destruct (Promise_all_retrieveChunk_effect rev
              ((fun i => createChunkKey prefix (N.of_nat i))
                 <$> seq 0 (N.to_nat (chunkCount_of m))) w1)
    as (rs & w2 & -> & Hf2 & Hn2 & Hm2).
  unfold try_catch, bind, lift, reassembleChunks, ret.
  destruct (JSON_parse _); eexists _, _; (split; [done|]);
    (split_and!; [congruence..|]); intros k0 v0 Hk; by apply Hm2, Hm1.
Qed.

Lemma storeInCache_effect data w :
  exists r w',
    storeInCache prefix rev data w = (r, w') /\
    faults w' = faults w /\
    fetches w' = fetches w /\
    (forall k v, dataCache w !! k = Some v -> dataCache w' !! k = Some v).
Proof.
  destruct (splitIntoChunks data SAFE_CHUNK_SIZE_BYTES) as [[chunks text]|e|] eqn:Hsplit.
  - rewrite (storeInCache_run prefix rev data chunks text) by done.
    destruct (Promise_all_store_gen rev (written_entries prefix chunks) w)
      as (r & w' & -> & Hf & Hn & Hm & _).
    destruct r; by eexists _, _.
  - rewrite (storeInCache_throws prefix rev data e) by done. by eexists _, _.
  - unfold storeInCache, bind, lift. rewrite Hsplit. by eexists _, _.
Qed.
End Effects.

(** ** The chunks of [splitIntoChunks] *)

Lemma chunk_loop_nonempty_start (fuel : nat) (s : jsstring) (i B : N) c rest :
  chunk_loop fuel s i B = Some (c :: rest) -> i < strlen s.
Proof.
  rewrite chunk_loop_unfold. destruct (N.ltb_spec i (strlen s)); [done|discriminate].
Qed.

Lemma chunk_loop_blocks (fuel : nat) (s : jsstring) (i B : N) (chunks : list jsstring) :
  0 < B ->
  chunk_loop fuel s i B = Some chunks ->
  Forall (fun chunk => chunk <> []) chunks /\
  (forall j chunk, chunks !! j = Some chunk -> (S j < length chunks)%nat ->
                   strlen chunk = B).
Proof.
  intros HB. revert i chunks. induction fuel as [|fuel IH]; intros i chunks;
    rewrite chunk_loop_unfold; destruct (N.ltb_spec i (strlen s)) as [Hlt|Hge];
    try discriminate; try (intros [= <-]; split; [constructor|by intros j c ?]).
  destruct (chunk_loop fuel s (i + B) B) as [rest|] eqn:Hrest; [|discriminate].
  intros [= <-]. destruct (IH _ _ Hrest) as [Hne Hfull].
  assert (Hlen : length (slice s i (i + B)) = Nat.min (N.to_nat B) (length s - N.to_nat i)).
  { rewrite slice_take_drop, length_take, length_drop. done. }
  unfold strlen in *. split.
  - constructor; [|done]. intros Hnil. rewrite Hnil in Hlen. simpl in Hlen. lia.
  - intros [|j] chunk Hj Hmore.
    + injection Hj as <-. destruct rest as [|c' rest']; [simpl in Hmore; lia|].
      apply chunk_loop_nonempty_start in Hrest. unfold strlen in Hrest. lia.
    + apply (Hfull j); [done|]. simpl in Hmore. lia.
Qed.

Lemma chunk_loop_count (fuel : nat) (s : jsstring) (i B : N) (chunks : list jsstring) :
  0 < B ->
  chunk_loop fuel s i B = Some chunks ->
  N.of_nat (length chunks) = (strlen s - i + B - 1) / B.
Proof.
  intros HB. revert i chunks. induction fuel as [|fuel IH]; intros i chunks;
    rewrite chunk_loop_unfold; destruct (N.ltb_spec i (strlen s)) as [Hlt|Hge];
    try discriminate;
    try (intros [= <-]; simpl; symmetry; apply N.div_small; lia).
  destruct (chunk_loop fuel s (i + B) B) as [rest|] eqn:Hrest; [|discriminate].
  intros [= <-]. pose proof (IH _ _ Hrest) as Hcount.
  change (length (slice s i (i + B) :: rest)) with (S (length rest)).
  rewrite Nat2N.inj_succ, Hcount.
  destruct (N.le_gt_cases (strlen s - i) B) as [Hle|Hgt].
  - replace (strlen s - (i + B)) with 0 by lia.
    rewrite (N.div_small (0 + B - 1) B) by lia.
    apply (N.div_unique _ _ (N.succ 0) (strlen s - i - 1)); lia.
  - replace (strlen s - i + B - 1) with ((strlen s - (i + B) + B - 1) + 1 * B) by lia.
    rewrite N.div_add by lia. lia.
Qed.

Lemma chunk_loop_zero (fuel : nat) (s : jsstring) (i : N) :
  i < strlen s -> chunk_loop fuel s i 0 = None.
Proof.
  intros Hlt. induction fuel as [|fuel IH]; rewrite chunk_loop_unfold;
    destruct (N.ltb_spec i (strlen s)); try lia; [done|].
  replace (i + 0) with i by lia. by rewrite IH.
Qed.

Lemma utf8_length_le_aux (n : nat) (s : jsstring) :
  (length s <= n)%nat -> utf8_length s <= 3 * strlen s.
Proof.
  unfold strlen. revert s. induction n as [|n IH]; intros [|c rest] Hn; simpl in Hn;
    try (simpl; lia).
  assert (Hrest : utf8_length rest <= 3 * N.of_nat (length rest)) by (apply IH; lia).
  cbn [utf8_length length].
  destruct (c <? 128); [lia|]. destruct (c <? 2048); [lia|].
  destruct (is_high_surrogate c); [|lia].
  destruct rest as [|d rest']; [lia|].
  destruct (is_low_surrogate d); [|lia].
  assert (utf8_length rest' <= 3 * N.of_nat (length rest')) by (apply IH; simpl in Hn; lia).
  simpl length. lia.
Qed.

Lemma utf8_length_le (s : jsstring) : utf8_length s <= 3 * strlen s.
Proof. by apply (utf8_length_le_aux (length s)). Qed.

Lemma utf8_length_ascii (s : jsstring) :
  Forall (fun u => u < 128) s -> utf8_length s = strlen s.
Proof.
  unfold strlen. induction 1 as [|c rest Hc _ IH]; [done|].
  cbn [utf8_length length]. destruct (N.ltb_spec c 128); lia.
Qed.

Lemma chunk_loop_sublists (fuel : nat) (s : jsstring) (i B : N) (chunks : list jsstring)
    (P : N -> Prop) :
  Forall P s ->
  chunk_loop fuel s i B = Some chunks ->
  Forall (Forall P) chunks.
Proof.
  intros HP. revert i chunks. induction fuel as [|fuel IH]; intros i chunks;
    rewrite chunk_loop_unfold; destruct (i <? strlen s); try discriminate;
    try (intros [= <-]; constructor).
  destruct (chunk_loop fuel s (i + B) B) as [rest|] eqn:Hrest; [|discriminate].
  intros [= <-]. constructor; [|by eapply IH].
  rewrite slice_take_drop. by apply Forall_take, Forall_drop.
Qed.

Lemma splitIntoChunks_inv `{Json Value} (data : Value) (B : N) chunks text :
  splitIntoChunks data B = Ok (chunks, text) ->
  JSON_stringify data = Ok (Some text) /\
  chunk_loop (length text) text 0 B = Some chunks.
Proof.
  unfold splitIntoChunks. destruct (JSON_stringify data) as [[jsonString|]|e|]; try done.
  destruct (chunk_loop _ _ _ _) eqn:Hloop; [|done]. by intros [= <- <-].
Qed.

(** X1: with a positive size, no chunk returned by [splitIntoChunks] is
    empty, none has more code units than the size, and every chunk but the
    last has exactly that many. *)
Theorem chunks_are_full_blocks `{Json Value} (data : Value) (B : N)
    (chunks : list jsstring) (text : jsstring) :
  0 < B ->
  splitIntoChunks data B = Ok (chunks, text) ->
  Forall (fun chunk => chunk <> [] /\ strlen chunk <= B) chunks /\
  (forall j chunk, chunks !! j = Some chunk -> (S j < length chunks)%nat ->
                   strlen chunk = B).
Proof.
  intros HB [_ Hloop]%splitIntoChunks_inv.
  destruct (chunk_loop_blocks _ _ _ _ _ HB Hloop) as [Hne Hfull].
  split; [|done]. pose proof (chunk_loop_bounded _ _ _ _ _ Hloop) as Hle.
  rewrite Forall_forall in Hne, Hle. apply Forall_forall. intros chunk Hin.
  split; [by apply Hne|by apply Hle].
Qed.

Lemma chunks_are_full_blocks_witness :
  let chunks : list jsstring := [34 :: js "ab"; js "cde"; js "fg" ++ [34]] in
  Forall (fun chunk => chunk <> [] /\ strlen chunk <= 3) chunks /\
  (forall j chunk, chunks !! j = Some chunk -> (S j < length chunks)%nat ->
                   strlen chunk = 3).
Proof.
  intros chunks.
  apply (chunks_are_full_blocks (JsString (js "abcdefg")) 3
           [34 :: js "ab"; js "cde"; js "fg" ++ [34]] (34 :: js "abcdefg" ++ [34]));
    reflexivity.
Defined.

(** X2: with a positive size, [splitIntoChunks] returns as many chunks as
    the length of the JSON text divided by the size, rounded up. *)
Theorem chunk_count_is_ceiling `{Json Value} (data : Value) (B : N)
    (chunks : list jsstring) (text : jsstring) :
  0 < B ->
  splitIntoChunks data B = Ok (chunks, text) ->
  N.of_nat (length chunks) = (strlen text + B - 1) / B.
Proof.
  intros HB [_ Hloop]%splitIntoChunks_inv.
  rewrite (chunk_loop_count _ _ _ _ _ HB Hloop). f_equal. lia.
Qed.

Lemma chunk_count_is_ceiling_witness :
  N.of_nat (length [34 :: js "ab"; js "cde"; js "fg" ++ [34]])
  = (strlen (34 :: js "abcdefg" ++ [34]) + 3 - 1) / 3.
Proof.
  apply (chunk_count_is_ceiling (JsString (js "abcdefg")) 3
           [34 :: js "ab"; js "cde"; js "fg" ++ [34]] (34 :: js "abcdefg" ++ [34]));
    reflexivity.
Defined.

(** X3: with the size zero and a text that is not empty, the loop of
    [splitIntoChunks] makes no progress: whatever the number of chunks the
    array takes, the loop condition is still true when the array is full,
    so that the call throws the RangeError of [chunks.push] and returns no
    chunks. *)
Theorem zero_chunk_size_fills_the_array `{Json Value} (data : Value) (text : jsstring) :
  JSON_stringify data = Ok (Some text) ->
  text <> [] ->
  splitIntoChunks data 0 = Throw RangeError /\
  forall fuel, chunk_loop fuel text 0 0 = None.
Proof.
  intros Htext Hne.
  assert (Hloop : forall fuel, chunk_loop fuel text 0 0 = None).
  { intros fuel. apply chunk_loop_zero. unfold strlen. destruct text; [done|simpl; lia]. }
  split; [|done]. unfold splitIntoChunks. by rewrite Htext, Hloop.
Qed.

Lemma zero_chunk_size_fills_the_array_witness :
  splitIntoChunks JsNull 0 = Throw RangeError /\
  forall fuel, chunk_loop fuel (js "null") 0 0 = None.
Proof.
  apply (zero_chunk_size_fills_the_array JsNull (js "null")); [reflexivity|discriminate].
Defined.

(** X4: the UTF-8 encoding of a chunk, as [TextEncoder] measures it in
    [storeInCache], has at most three bytes for each code unit the size
    allows; when the JSON text is made of ASCII characters only, every
    chunk has at most as many bytes as the size. *)
Theorem chunk_byte_sizes `{Json Value} (data : Value) (B : N)
    (chunks : list jsstring) (text : jsstring) :
  splitIntoChunks data B = Ok (chunks, text) ->
  Forall (fun chunk => utf8_length chunk <= 3 * B) chunks /\
  (Forall (fun u => u < 128) text ->
   Forall (fun chunk => utf8_length chunk <= B) chunks).
Proof.
  intros [_ Hloop]%splitIntoChunks_inv.
  pose proof (chunk_loop_bounded _ _ _ _ _ Hloop) as Hle.
  rewrite Forall_forall in Hle. split.
  - apply Forall_forall. intros chunk Hin.
    pose proof (utf8_length_le chunk). specialize (Hle chunk Hin). lia.
  - intros Hascii.
    pose proof (chunk_loop_sublists _ _ _ _ _ _ Hascii Hloop) as Hsub.
    rewrite Forall_forall in Hsub. apply Forall_forall. intros chunk Hin.
    rewrite utf8_length_ascii by (by apply Hsub). by apply Hle.
Qed.

Lemma chunk_byte_sizes_witness :
  Forall (fun chunk => utf8_length chunk <= 3 * 2) [[34; 233]; [233; 233]; [34]] /\
  (Forall (fun u => u < 128) [34; 233; 233; 233; 34] ->
   Forall (fun chunk => utf8_length chunk <= 2) [[34; 233]; [233; 233]; [34]]).
Proof.
  apply (chunk_byte_sizes (JsString [233; 233; 233]) 2
           [[34; 233]; [233; 233]; [34]] [34; 233; 233; 233; 34]).
  reflexivity.
Defined.

(** ** Keys *)

(** X5: the entries of one cache have keys of their own: two chunk indices
    give two keys, no chunk key is the metadata key, and two revalidation
    times give two keys. *)
Theorem cache_keys_never_collide (prefix key : jsstring) (rev : N) :
  (forall i j, cacheKeyOf (createChunkKey prefix i) rev
               = cacheKeyOf (createChunkKey prefix j) rev -> i = j) /\
  (forall i, cacheKeyOf (metadataKey prefix) rev
             <> cacheKeyOf (createChunkKey prefix i) rev) /\
  (forall rev', cacheKeyOf key rev = cacheKeyOf key rev' -> rev = rev').
Proof.
  split_and!.
  - by intros i j Heq%cacheKeyOf_inj%createChunkKey_inj.
  - intros i Heq%cacheKeyOf_inj. by apply metadataKey_not_chunkKey in Heq.
  - unfold cacheKeyOf. intros rev' Heq%(inj (_ ++.))%(inj (_ ++.)).
    by apply number_to_string_inj.
Qed.

(** X6: prefixes do not separate caches.  The metadata key of the cache
    with prefix [x::chunk<i>] is the key of chunk [i] of the cache with
    prefix [metadata::x].  Once the second cache has stored a payload of
    more than [i] chunks, the first cache reads chunk [i] of that payload
    as its metadata, takes it for a record without chunks and misses (the
    empty text is no JSON); its [get()] calls the producer, and its
    store-back leaves the entry to the chunk, so that its next [get()]
    meets the same entry. *)
Theorem metadata_key_is_a_chunk_key_of_another_cache `{Json Value}
    (fetchData : nat -> Outcome Value) (rev : N)
    (x : jsstring) (i : nat) (w : World) (data : Value)
    (chunks : list jsstring) (text chunk : jsstring) :
  settled w ->
  splitIntoChunks data SAFE_CHUNK_SIZE_BYTES = Ok (chunks, text) ->
  chunks !! i = Some chunk ->
  dataCache w !! cacheKeyOf (createChunkKey (js "metadata::" ++ x) (N.of_nat i)) rev
    = None ->
  JSON_parse [] = None ->
  let other := x ++ js "::chunk" ++ number_to_string (N.of_nat i) in
  metadataKey other = createChunkKey (js "metadata::" ++ x) (N.of_nat i) /\
  exists w1,
    storeInCache (js "metadata::" ++ x) rev data w = (Ok tt, w1) /\
    retrieveMetadata (metadataKey other) rev w1 = (Ok (Some (CChunk chunk)), w1) /\
    retrieveFromCache other rev w1 = (Ok None, w1) /\
    fetches (snd (get other fetchData rev w1)) = S (fetches w1) /\
    dataCache (snd (get other fetchData rev w1)) !! cacheKeyOf (metadataKey other) rev
      = Some (CChunk chunk).
Proof.
  intros Hs Hsplit Hi Hfree Hparse other.
  assert (Hkey : metadataKey other = createChunkKey (js "metadata::" ++ x) (N.of_nat i)).
  { unfold other, metadataKey, createChunkKey. by rewrite <- (assoc_L (++)). }
  split; [done|].
  rewrite (storeInCache_run (js "metadata::" ++ x) rev data chunks text) by done.
  destruct (Promise_all_store rev (written_entries (js "metadata::" ++ x) chunks) w)
    as (l & w1 & -> & Hf1 & _ & _ & Hsettled & Hwritten).
  { intros kv _. destruct Hs as [-> _]. apply lookup_empty. }
  exists w1.
  assert (Hs1 : settled w1).
  { destruct Hs as [Hf Hrs]. split; [congruence|by apply Hsettled]. }
  assert (Hentry : dataCache w1 !! cacheKeyOf (metadataKey other) rev = Some (CChunk chunk)).
  { rewrite Hkey.
    apply (Hwritten (written_entries_NoDup _ rev chunks)
             (createChunkKey (js "metadata::" ++ x) (N.of_nat i), CChunk chunk));
      [by apply written_entries_lookup|done]. }
  assert (Hmiss : retrieveFromCache other rev w1 = (Ok None, w1)).
  { rewrite retrieveFromCache_settled by done. rewrite Hentry.
    destruct (falsy (CChunk chunk)); [done|]. simpl. by rewrite Hparse. }
  split_and!; [done| |done|..].
  - rewrite retrieveMetadata_run, getCachedValue_settled by done. by rewrite Hentry.
  - rewrite (get_miss other fetchData rev w1 w1 Hmiss).
    destruct (fetchData (fetches w1)) as [fresh|e|]; [|done..].
    destruct (storeInCache_effect other rev fresh (fetched w1))
      as (r & w2 & -> & _ & Hn & _). by destruct r.
  - rewrite (get_miss other fetchData rev w1 w1 Hmiss).
    destruct (fetchData (fetches w1)) as [fresh|e|]; [|done..].
    destruct (storeInCache_effect other rev fresh (fetched w1))
      as (r & w2 & -> & _ & _ & Hm). destruct r; by apply Hm.
Qed.

Lemma metadata_key_is_a_chunk_key_of_another_cache_witness :
  let other := js "x" ++ js "::chunk" ++ number_to_string (N.of_nat 0) in
  let chunk := 34 :: js "hello" ++ [34] in
  let fetchData := fun _ : nat => Ok JsNull in
  metadataKey other = createChunkKey (js "metadata::" ++ js "x") (N.of_nat 0) /\
  exists w1,
    storeInCache (js "metadata::" ++ js "x") 3600 (JsString (js "hello")) emptyWorld
      = (Ok tt, w1) /\
    retrieveMetadata (metadataKey other) 3600 w1 = (Ok (Some (CChunk chunk)), w1) /\
    retrieveFromCache other 3600 w1 = (Ok None, w1) /\
    fetches (snd (get other fetchData 3600 w1)) = S (fetches w1) /\
    dataCache (snd (get other fetchData 3600 w1)) !! cacheKeyOf (metadataKey other) 3600
      = Some (CChunk chunk).
Proof.
  intros other chunk fetchData.
  apply (metadata_key_is_a_chunk_key_of_another_cache fetchData 3600 (js "x") 0%nat
           emptyWorld (JsString (js "hello")) [chunk] chunk chunk).
  - split; [reflexivity|]. intros k _. reflexivity.
  - vm_compute. reflexivity.
  - reflexivity.
  - reflexivity.
  - vm_compute. reflexivity.
Defined.

(** The same on a run: after the cache [metadata::x] has been filled, the
    cache [x::chunk0] calls its producer on every [get()]. *)
Example another_cache_never_hits :
  let w1 := snd (get (js "metadata::x") (fun _ => Ok (JsString (js "hello"))) 3600
                     emptyWorld) in
  let w2 := snd (get (js "x::chunk0") (fun _ => Ok JsNull) 3600 w1) in
  let w3 := snd (get (js "x::chunk0") (fun _ => Ok JsNull) 3600 w2) in
  fst (retrieveMetadata (metadataKey (js "x::chunk0")) 3600 w1)
    = Ok (Some (CChunk (34 :: js "hello" ++ [34]))) /\
  fetches w1 = 1%nat /\ fetches w2 = 2%nat /\ fetches w3 = 3%nat.
Proof. vm_compute. done. Qed.

(** ** One value through the cache, first revision *)

(** X7: a value stored under a key that is not in the data cache, with a
    working primitive, is what a retrieval of that key returns next. *)
Theorem store_then_get (key : jsstring) (value : Cached) (rev : N)
    (tag tag' : jsstring) (w : World) :
  faults w !! cacheKeyOf key rev = None ->
  dataCache w !! cacheKeyOf key rev = None ->
  exists w1,
    storeCachedValue key value rev tag w = (Ok tt, w1) /\
    getCachedValue key rev tag' w1 = (Ok (Some value), w1).
Proof.
  intros Hf Hd. rewrite (storeCachedValue_ok _ _ _ _ _ Hf), Hd.
  eexists. split; [done|]. rewrite getCachedValue_run. simpl.
  by rewrite Hf, lookup_insert_eq.
Qed.

Lemma store_then_get_witness :
  exists w1,
    storeCachedValue (js "k") (CChunk (js "abc")) 3600 (js "chunk") emptyWorld
      = (Ok tt, w1) /\
    getCachedValue (js "k") 3600 (js "chunk") w1 = (Ok (Some (CChunk (js "abc"))), w1).
Proof.
  apply (store_then_get (js "k") (CChunk (js "abc")) 3600 (js "chunk") (js "chunk")
           emptyWorld); reflexivity.
Defined.

(** X8: [storeCachedValue] does not replace an entry that is in the data
    cache: the call succeeds, the data cache is unchanged, and a retrieval
    returns the old value. *)
Theorem store_keeps_existing_entry (key : jsstring) (value old : Cached) (rev : N)
    (tag tag' : jsstring) (w : World) :
  faults w !! cacheKeyOf key rev = None ->
  dataCache w !! cacheKeyOf key rev = Some old ->
  exists w1,
    storeCachedValue key value rev tag w = (Ok tt, w1) /\
    dataCache w1 = dataCache w /\
    getCachedValue key rev tag' w1 = (Ok (Some old), w1).
Proof.
  intros Hf Hd. rewrite (storeCachedValue_ok _ _ _ _ _ Hf), Hd.
  eexists. split_and!; [done..|]. rewrite getCachedValue_run. simpl.
  by rewrite Hf, Hd.
Qed.

Lemma store_keeps_existing_entry_witness :
  let w := mkWorld {[cacheKeyOf (js "k") 3600 := CChunk (js "old")]} ∅ ∅ 0 in
  exists w1,
    storeCachedValue (js "k") (CChunk (js "new")) 3600 (js "chunk") w = (Ok tt, w1) /\
    dataCache w1 = dataCache w /\
    getCachedValue (js "k") 3600 (js "chunk") w1 = (Ok (Some (CChunk (js "old"))), w1).
Proof.
  intros w.
  apply (store_keeps_existing_entry (js "k") (CChunk (js "new")) (CChunk (js "old"))
           3600 (js "chunk") (js "chunk") w); vm_compute; reflexivity.
Defined.

(** X9: in the process that stored a value, the value stays in
    [requestStore]: when its entry is evicted from the data cache, the next
    retrieval still returns the value and writes it to the data cache again. *)
Theorem evicted_entry_is_bridged_back (key : jsstring) (value : Cached) (rev : N)
    (tag tag' : jsstring) (w : World) :
  faults w !! cacheKeyOf key rev = None ->
  let w1 := snd (storeCachedValue key value rev tag w) in
  let w2 := mkWorld (delete (cacheKeyOf key rev) (dataCache w1)) (requestStore w1)
                    (faults w1) (fetches w1) in
  getCachedValue key rev tag' w2 =
  (Ok (Some value),
   mkWorld (<[cacheKeyOf key rev := value]> (dataCache w2)) (requestStore w2)
           (faults w2) (fetches w2)).
Proof.
  intros Hf w1 w2. subst w2 w1.
  rewrite (storeCachedValue_ok _ _ _ _ _ Hf). rewrite getCachedValue_run. simpl.
  by rewrite Hf, lookup_delete_eq, lookup_insert_eq.
Qed.

Lemma evicted_entry_is_bridged_back_witness :
  let w1 := snd (storeCachedValue (js "k") (CChunk (js "abc")) 3600 (js "chunk")
                   emptyWorld) in
  let w2 := mkWorld (delete (cacheKeyOf (js "k") 3600) (dataCache w1)) (requestStore w1)
                    (faults w1) (fetches w1) in
  getCachedValue (js "k") 3600 (js "chunk") w2 =
  (Ok (Some (CChunk (js "abc"))),
   mkWorld (<[cacheKeyOf (js "k") 3600 := CChunk (js "abc")]> (dataCache w2))
           (requestStore w2) (faults w2) (fetches w2)).
Proof.
  apply (evicted_entry_is_bridged_back (js "k") (CChunk (js "abc")) 3600 (js "chunk")
           (js "chunk") emptyWorld). reflexivity.
Defined.

(** ** The orchestrator, in every world *)

Lemma filter_non_null_all_none {A} (l : list (option A)) :
  Forall (fun o => o = None) l -> filter_non_null l = [].
Proof. unfold filter_non_null. induction 1 as [|o l -> _ IH]; [done|]. simpl. apply IH. Qed.

Lemma written_entries_inv (prefix : jsstring) (chunks : list jsstring) kv :
  kv ∈ written_entries prefix chunks ->
  kv = (metadataKey prefix, CMeta (N.of_nat (length chunks))) \/
  exists i chunk, chunks !! i = Some chunk /\
                  kv = (createChunkKey prefix (N.of_nat i), CChunk chunk).
Proof.
  unfold written_entries. intros [->|Hin]%elem_of_cons; [by left|right].
  apply elem_of_lookup_imap in Hin as (i & chunk & -> & Hi). by exists i, chunk.
Qed.

Section EveryWorld.
Context {Value : Type} `{Json Value}.
Variable prefix : jsstring.
Variable fetchData : nat -> Outcome Value.
Variable rev : N.

(** X10: the cache path never fails and never calls the producer:
    whatever the cache holds and whichever calls of the primitive are
    rejected, [retrieveFromCache] returns a value or [null], and leaves the
    count of producer calls as it was. *)
Theorem retrieval_never_fails (w : World) :
  exists r w',
    retrieveFromCache prefix rev w = (Ok r, w') /\
    fetches w' = fetches w /\
    faults w' = faults w.
Proof.
  destruct (retrieveFromCache_effect prefix rev w) as (r & w' & Hr & Hf & Hn & _).
  by exists r, w'.
Qed.

(** X11: one [get()] calls the producer at most once: not at all when
    [retrieveFromCache] returned a value, and exactly once when it returned
    [null], whether or not the producer and the store-back succeed. *)
Theorem producer_called_at_most_once (w : World) :
  exists cached w1,
    retrieveFromCache prefix rev w = (Ok cached, w1) /\
    fetches (snd (get prefix fetchData rev w)) =
      match cached with
      | Some _ => fetches w
      | None => S (fetches w)
      end.
Proof.
  destruct (retrieveFromCache_effect prefix rev w) as (c & w1 & Hr & _ & Hn & _).
  exists c, w1. split; [done|]. destruct c as [[data n]|].
  - by rewrite (get_hit prefix fetchData rev w data n w1 Hr).
  - rewrite (get_miss prefix fetchData rev w w1 Hr).
    destruct (fetchData (fetches w1)) as [fresh|e|]; [|simpl; congruence..].
    destruct (storeInCache_effect prefix rev fresh (fetched w1))
      as (r & w2 & -> & _ & Hn2 & _).
    destruct r; simpl; rewrite Hn2; simpl; congruence.
Qed.

(** X12: [get()] never replaces or removes an entry of the data cache: an
    entry that is there before the call is there after it, with the same
    value, on a hit and on a miss followed by a store-back alike. *)
Theorem get_keeps_persisted_entries (w : World) (k : jsstring) (v : Cached) :
  dataCache w !! k = Some v ->
  dataCache (snd (get prefix fetchData rev w)) !! k = Some v.
Proof.
  intros Hk.
  destruct (retrieveFromCache_effect prefix rev w) as (c & w1 & Hr & _ & _ & Hm1).
  destruct c as [[data n]|].
  - rewrite (get_hit prefix fetchData rev w data n w1 Hr). by apply Hm1.
  - rewrite (get_miss prefix fetchData rev w w1 Hr).
    destruct (fetchData (fetches w1)) as [fresh|e|]; [|by apply Hm1..].
    destruct (storeInCache_effect prefix rev fresh (fetched w1))
      as (r & w2 & -> & _ & _ & Hm2).
    destruct r; simpl; apply Hm2; simpl; by apply Hm1.
Qed.

(** X13: when the metadata entry is neither in the data cache nor in
    [requestStore], [retrieveFromCache] returns [null] without looking at
    any chunk, and [get()] calls the producer, whatever chunks are still
    there. *)
Theorem metadata_loss_is_miss (w : World) :
  dataCache w !! cacheKeyOf (metadataKey prefix) rev = None ->
  requestStore w !! cacheKeyOf (metadataKey prefix) rev = None ->
  retrieveFromCache prefix rev w = (Ok None, w) /\
  fetches (snd (get prefix fetchData rev w)) = S (fetches w).
Proof.
  intros Hd Hr.
  assert (Hmiss : retrieveFromCache prefix rev w = (Ok None, w)).
  { unfold retrieveFromCache, bind.
    rewrite retrieveMetadata_run, getCachedValue_run, Hd, Hr.
    by destruct (faults w !! _). }
  split; [done|]. rewrite (get_miss prefix fetchData rev w w Hmiss).
  destruct (fetchData (fetches w)) as [fresh|e|]; [|done..].
  destruct (storeInCache_effect prefix rev fresh (fetched w))
    as (r & w2 & -> & _ & Hn2 & _).
  by destruct r.
Qed.

(** X14: a store-back into a world where the primitive works for the keys
    it writes and none of them is in the data cache succeeds and leaves the
    metadata with the number of chunks, every chunk under the key of its
    index, and every other entry of the data cache as it was. *)
Theorem storeInCache_populates (w : World) (data : Value)
    (chunks : list jsstring) (text : jsstring) :
  splitIntoChunks data SAFE_CHUNK_SIZE_BYTES = Ok (chunks, text) ->
  (forall kv, kv ∈ written_entries prefix chunks ->
              faults w !! cacheKeyOf kv.1 rev = None /\
              dataCache w !! cacheKeyOf kv.1 rev = None) ->
  exists w',
    storeInCache prefix rev data w = (Ok tt, w') /\
    dataCache w' !! cacheKeyOf (metadataKey prefix) rev
      = Some (CMeta (N.of_nat (length chunks))) /\
    (forall i chunk, chunks !! i = Some chunk ->
       dataCache w' !! cacheKeyOf (createChunkKey prefix (N.of_nat i)) rev
         = Some (CChunk chunk)) /\
    (forall k, k ∉ (fun kv => cacheKeyOf kv.1 rev) <$> written_entries prefix chunks ->
               dataCache w' !! k = dataCache w !! k).
Proof.
  intros Hsplit Hfresh.
  rewrite (storeInCache_run prefix rev data chunks text) by done.
  destruct (Promise_all_store_gen rev (written_entries prefix chunks) w)
    as (r & w' & Hrun & _ & _ & _ & Hframe & _ & Hwritten).
  destruct (Promise_all_store_any rev (written_entries prefix chunks) w)
    as (r' & w'' & Hrun' & _ & _ & Hcases).
  rewrite Hrun in Hrun'. injection Hrun' as <- <-. rewrite Hrun.
  destruct Hcases as [[[l ->] _]|(e & kv & _ & Hin & Hkv)].
  - exists w'. split_and!; [done| | |done].
    + apply (Hwritten (written_entries_NoDup prefix rev chunks)
               (metadataKey prefix, CMeta (N.of_nat (length chunks))));
        [by left|apply (Hfresh (metadataKey prefix, _)); by left..].
    + intros i chunk Hi.
      pose proof (written_entries_lookup prefix chunks i chunk Hi) as Hin.
      apply (Hwritten (written_entries_NoDup prefix rev chunks) _ Hin);
        by apply (Hfresh _ Hin).
  - destruct (Hfresh kv Hin) as [Hnone _]. congruence.
Qed.

(** X15: the writes of a store-back do not wait for each other: when the
    write of the metadata is rejected, [storeInCache] rejects with that
    error, the metadata entry is left as it was, and every chunk whose key
    works and is free is in the data cache all the same. *)
Theorem failed_metadata_write_leaves_chunks (w : World) (data : Value)
    (chunks : list jsstring) (text : jsstring) (e : Exn) :
  splitIntoChunks data SAFE_CHUNK_SIZE_BYTES = Ok (chunks, text) ->
  faults w !! cacheKeyOf (metadataKey prefix) rev = Some e ->
  (forall i chunk, chunks !! i = Some chunk ->
     faults w !! cacheKeyOf (createChunkKey prefix (N.of_nat i)) rev = None /\
     dataCache w !! cacheKeyOf (createChunkKey prefix (N.of_nat i)) rev = None) ->
  exists w',
    storeInCache prefix rev data w = (Throw e, w') /\
    dataCache w' !! cacheKeyOf (metadataKey prefix) rev
      = dataCache w !! cacheKeyOf (metadataKey prefix) rev /\
    (forall i chunk, chunks !! i = Some chunk ->
       dataCache w' !! cacheKeyOf (createChunkKey prefix (N.of_nat i)) rev
         = Some (CChunk chunk)).
Proof.
  intros Hsplit Hfault Hchunks.
  rewrite (storeInCache_run prefix rev data chunks text) by done.
  destruct (Promise_all_store_gen rev (written_entries prefix chunks) w)
    as (r & w' & Hrun & _ & _ & _ & _ & Hfaulty & Hwritten).
  assert (Hr : r = Throw e).
  { revert Hrun. unfold written_entries. rewrite fmap_cons, Promise_all_cons.
    simpl fst; simpl snd. rewrite (storeCachedValue_fault _ _ _ _ _ e Hfault).
    destruct (Promise_all _ _) as [rs w2]. by intros [= <- _]. }
  subst r. rewrite Hrun. exists w'. split_and!; [done| |].
  - apply Hfaulty. by eexists.
  - intros i chunk Hi.
    pose proof (written_entries_lookup prefix chunks i chunk Hi) as Hin.
    apply (Hwritten (written_entries_NoDup prefix rev chunks) _ Hin);
      by apply (Hchunks i chunk Hi).
Qed.

(** X16: when the metadata is there but none of the chunks it counts can
    be retrieved (or it counts none), the joined text is empty;
    [JSON.parse] rejects the empty text and [retrieveFromCache] returns
    [null]. *)
Theorem nothing_retrieved_is_miss (w : World) (n : N) :
  settled w ->
  JSON_parse [] = @None Value ->
  dataCache w !! cacheKeyOf (metadataKey prefix) rev = Some (CMeta n) ->
  (forall i, (i < N.to_nat n)%nat ->
     dataCache w !! cacheKeyOf (createChunkKey prefix (N.of_nat i)) rev = None) ->
  retrieveFromCache (Value := Value) prefix rev w = (Ok None, w).
Proof.
  intros Hs Hparse Hmeta Hnone.
  rewrite retrieveFromCache_settled by done. rewrite Hmeta. cbn [falsy chunkCount_of].
  rewrite filter_non_null_all_none; [by cbn; rewrite Hparse|].
  apply Forall_forall. intros o (k & -> & (i & -> & Hi)%list_elem_of_fmap)%list_elem_of_fmap.
  apply elem_of_seq in Hi. apply Hnone. lia.
Qed.
End EveryWorld.

Lemma get_keeps_persisted_entries_witness :
  let w := mkWorld {[cacheKeyOf (metadataKey (js "k")) 3600 := CMeta 7]} ∅ ∅ 0 in
  dataCache (snd (get (js "k") (fun _ => Ok (JsString (js "hello"))) 3600 w))
    !! cacheKeyOf (metadataKey (js "k")) 3600 = Some (CMeta 7).
Proof.
  intros w.
  apply (get_keeps_persisted_entries (js "k") (fun _ => Ok (JsString (js "hello"))) 3600
           w (cacheKeyOf (metadataKey (js "k")) 3600) (CMeta 7)).
  vm_compute; reflexivity.
Defined.

Lemma metadata_loss_is_miss_witness :
  let w := mkWorld {[cacheKeyOf (createChunkKey (js "k") 0) 3600
                       := CChunk (34 :: js "hello" ++ [34])]} ∅ ∅ 0 in
  @retrieveFromCache JsValue _ (js "k") 3600 w = (Ok None, w) /\
  fetches (snd (get (js "k") (fun _ => Ok (JsString (js "hello"))) 3600 w))
    = S (fetches w).
Proof.
  intros w.
  apply (metadata_loss_is_miss (js "k") (fun _ => Ok (JsString (js "hello"))) 3600 w);
    vm_compute; reflexivity.
Defined.

Lemma storeInCache_populates_witness :
  exists w',
    storeInCache (js "k") 3600 (JsString (js "hello")) emptyWorld = (Ok tt, w') /\
    dataCache w' !! cacheKeyOf (metadataKey (js "k")) 3600
      = Some (CMeta (N.of_nat (length [34 :: js "hello" ++ [34]]))) /\
    (forall i chunk, [34 :: js "hello" ++ [34]] !! i = Some chunk ->
       dataCache w' !! cacheKeyOf (createChunkKey (js "k") (N.of_nat i)) 3600
         = Some (CChunk chunk)) /\
    (forall k, k ∉ (fun kv => cacheKeyOf kv.1 3600)
                     <$> written_entries (js "k") [34 :: js "hello" ++ [34]] ->
               dataCache w' !! k = dataCache emptyWorld !! k).
Proof.
  apply (storeInCache_populates (js "k") 3600 emptyWorld (JsString (js "hello"))
           [34 :: js "hello" ++ [34]] (34 :: js "hello" ++ [34])).
  - reflexivity.
  - intros kv _. split; reflexivity.
Defined.

Lemma failed_metadata_write_leaves_chunks_witness :
  let w := mkWorld ∅ ∅
             {[cacheKeyOf (metadataKey (js "k")) 3600 := Error (js "write failed")]} 0 in
  exists w',
    storeInCache (js "k") 3600 (JsString (js "hello")) w
      = (Throw (Error (js "write failed")), w') /\
    dataCache w' !! cacheKeyOf (metadataKey (js "k")) 3600
      = dataCache w !! cacheKeyOf (metadataKey (js "k")) 3600 /\
    (forall i chunk, [34 :: js "hello" ++ [34]] !! i = Some chunk ->
       dataCache w' !! cacheKeyOf (createChunkKey (js "k") (N.of_nat i)) 3600
         = Some (CChunk chunk)).
Proof.
  intros w.
  apply (failed_metadata_write_leaves_chunks (js "k") 3600 w (JsString (js "hello"))
           [34 :: js "hello" ++ [34]] (34 :: js "hello" ++ [34])
           (Error (js "write failed"))).
  - reflexivity.
  - vm_compute; reflexivity.
  - intros [|i] chunk Hi; [split; vm_compute; reflexivity|discriminate Hi].
Defined.

Lemma nothing_retrieved_is_miss_witness :
  let w := mkWorld {[cacheKeyOf (metadataKey (js "k")) 3600 := CMeta 2]} ∅ ∅ 0 in
  @retrieveFromCache JsValue _ (js "k") 3600 w = (Ok None, w).
Proof.
  intros w. apply (nothing_retrieved_is_miss (js "k") 3600 w 2).
  - split; [reflexivity|]. intros k _. reflexivity.
  - reflexivity.
  - vm_compute; reflexivity.
  - intros [|[|i]] Hi; [vm_compute; reflexivity..|]. simpl in Hi. lia.
Defined.

(** ** The second revision *)

Lemma rev2_storeCachedValue_run key value rev tag w :
  Rev2.storeCachedValue key value rev tag w =
  match faults w !! cacheKeyOf key rev with
  | Some e => (Throw e, w)
  | None =>
      (Ok tt,
       mkWorld (match dataCache w !! cacheKeyOf key rev with
                | Some _ => dataCache w
                | None => <[cacheKeyOf key rev := value]> (dataCache w)
                end)
               (requestStore w) (faults w) (fetches w))
  end.
Proof.
  unfold Rev2.storeCachedValue, bind, unstable_cache, Rev2.read_store, ret.
  destruct (faults w !! cacheKeyOf key rev); [done|].
  destruct (dataCache w !! cacheKeyOf key rev); [by destruct w|].
  by rewrite lookup_insert_eq.
Qed.

Lemma rev2_getCachedValue_run key rev tag w :
  Rev2.getCachedValue key rev tag w =
  (Ok match faults w !! cacheKeyOf key rev with
      | Some _ => None
      | None => dataCache w !! cacheKeyOf key rev
      end, w).
Proof.
  unfold Rev2.getCachedValue, try_catch, bind, unstable_cache, Rev2.read_store, ret.
  destruct (faults w !! cacheKeyOf key rev); [done|].
  destruct (dataCache w !! cacheKeyOf key rev); [done|].
  by rewrite lookup_empty.
Qed.

(** X17: in the second revision nothing outlives the call that stored a
    value: when the entry is evicted from the data cache, the next
    retrieval returns [null] and leaves the world as it is. *)
Theorem rev2_evicted_entry_is_gone (key : jsstring) (value : Cached) (rev : N)
    (tag tag' : jsstring) (w : World) :
  faults w !! cacheKeyOf key rev = None ->
  let w1 := snd (Rev2.storeCachedValue key value rev tag w) in
  let w2 := mkWorld (delete (cacheKeyOf key rev) (dataCache w1)) (requestStore w1)
                    (faults w1) (fetches w1) in
  Rev2.getCachedValue key rev tag' w2 = (Ok None, w2).
Proof.
  intros Hf w1 w2. subst w2 w1.
  rewrite rev2_storeCachedValue_run, Hf, rev2_getCachedValue_run. simpl.
  by rewrite Hf, lookup_delete_eq.
Qed.

Lemma rev2_evicted_entry_is_gone_witness :
  let w1 := snd (Rev2.storeCachedValue (js "k") (CChunk (js "abc")) 3600 (js "chunk")
                   emptyWorld) in
  let w2 := mkWorld (delete (cacheKeyOf (js "k") 3600) (dataCache w1)) (requestStore w1)
                    (faults w1) (fetches w1) in
  Rev2.getCachedValue (js "k") 3600 (js "chunk") w2 = (Ok None, w2).
Proof.
  apply (rev2_evicted_entry_is_gone (js "k") (CChunk (js "abc")) 3600 (js "chunk")
           (js "chunk") emptyWorld). reflexivity.
Defined.

(** ** The validation of [src/unnamed/part_000] *)

Lemma filter_non_null_Some {A} (l : list A) : filter_non_null (Some <$> l) = l.
Proof.
  unfold filter_non_null. induction l as [|a l IH]; [done|].
  rewrite fmap_cons. simpl. f_equal. apply IH.
Qed.

Lemma mapM_id_Some {A} (results : list (option A)) (chunks : list A) :
  mapM id results = Some chunks -> results = Some <$> chunks.
Proof.
  intros HF%mapM_Some_1. induction HF as [|o a results chunks Ho _ IH]; [done|].
  simpl in Ho. by rewrite fmap_cons, Ho, IH.
Qed.

(** X19: in [src/unnamed/part_000], once the metadata gives the expected
    count and the retrievals of the chunks are joined, [retrieveFromCache]
    returns a value exactly when every expected chunk was retrieved and the
    text of all of them, joined in index order, parses; it then returns the
    parsed value with the expected count.  Otherwise it returns [null]. *)
Theorem part000_hit_iff_complete `{Json Value}
    (retrieveMetadata : jsstring -> N -> M (option N))
    (retrieveChunk : jsstring -> N -> M (option jsstring))
    (prefix : jsstring) (rev : N) (w w1 w2 : World) (expected : N)
    (results : list (option jsstring)) :
  retrieveMetadata (metadataKey prefix) rev w = (Ok (Some expected), w1) ->
  Promise_all ((fun chunkKey => retrieveChunk chunkKey rev)
                 <$> ((fun i => createChunkKey prefix (N.of_nat i))
                        <$> seq 0 (N.to_nat expected))) w1 = (Ok results, w2) ->
  Part000.retrieveFromCache (Value := Value) retrieveMetadata retrieveChunk prefix rev w =
  (Ok match mapM id results with
      | Some chunks =>
          match JSON_parse (join chunks) with
          | Some data => Some (data, expected)
          | None => None
          end
      | None => None
      end, w2).
Proof.
  intros Hmeta Hall.
  pose proof (Promise_all_length _ _ _ _ Hall) as Hlen.
  rewrite !length_fmap, length_seq in Hlen.
  unfold Part000.retrieveFromCache, bind. rewrite Hmeta, Hall.
  destruct (mapM id results) as [chunks|] eqn:Hmap.
  - apply mapM_id_Some in Hmap. subst results.
    rewrite filter_non_null_Some. rewrite length_fmap in Hlen.
    destruct (N.eqb_spec (N.of_nat (length chunks)) expected) as [Heq|]; [|lia].
    unfold try_catch, bind, lift, reassembleChunks, ret. simpl.
    destruct (JSON_parse (join chunks)); [by rewrite Heq|done].
  - apply mapM_None_1, Exists_exists in Hmap as (o & Hin & Ho). simpl in Ho. subst o.
    pose proof (filter_non_null_length results Hin).
    destruct (N.eqb_spec (N.of_nat (length (filter_non_null results))) expected);
      [lia|done].
Qed.

Lemma part000_hit_iff_complete_witness :
  Part000.retrieveFromCache (Value := JsValue)
    (fun _ _ => ret (Some 2)) (fun _ _ => ret (Some [34])) (js "k") 3600 emptyWorld =
  (Ok match mapM id [Some [34]; Some [34]] with
      | Some chunks =>
          match JSON_parse (join chunks) with
          | Some data => Some (data, 2)
          | None => None
          end
      | None => None
      end, emptyWorld).
Proof.
  apply (part000_hit_iff_complete (fun _ _ => ret (Some 2)) (fun _ _ => ret (Some [34]))
           (js "k") 3600 emptyWorld emptyWorld emptyWorld 2 [Some [34]; Some [34]]);
    reflexivity.
Defined.

Example part000_one_chunk_lost :
  Part000.retrieveFromCache (Value := JsValue)
    (fun _ _ => ret (Some 3))
    (fun chunkKey _ => ret (if decide (chunkKey = createChunkKey (js "k") 1)
                            then None else Some [34]))
    (js "k") 3600 emptyWorld = (Ok None, emptyWorld).
Proof. vm_compute. reflexivity. Qed.

(** ** More on the miss path *)

Section MissPath.
Context {Value : Type} `{Json Value}.
Variable prefix : jsstring.
Variable fetchData : nat -> Outcome Value.
Variable rev : N.

(** X20: other entries in the data cache do not disturb a cache and are
    not disturbed by it: in a world where the primitive works, nothing waits
    in [requestStore], and none of the keys of this cache is in the data
    cache, a producer's value whose JSON text parses back to it is returned
    by the first [get()], returned again by the second without a call of
    the producer, and every entry under another key is left as it was. *)
Theorem miss_then_hit_among_other_entries (w : World) (data : Value)
    (chunks : list jsstring) (text : jsstring) :
  settled w ->
  fetchData (fetches w) = Ok data ->
  splitIntoChunks data SAFE_CHUNK_SIZE_BYTES = Ok (chunks, text) ->
  JSON_parse text = Some data ->
  (forall kv, kv ∈ written_entries prefix chunks ->
              dataCache w !! cacheKeyOf kv.1 rev = None) ->
  exists w1,
    get prefix fetchData rev w = (Ok data, w1) /\
    fetches w1 = S (fetches w) /\
    get prefix fetchData rev w1 = (Ok data, w1) /\
    (forall k, k ∉ (fun kv => cacheKeyOf kv.1 rev) <$> written_entries prefix chunks ->
               dataCache w1 !! k = dataCache w !! k).
Proof.
  intros [Hf Hb] Hfetch Hsplit Hparse Hfresh.
  assert (Hmiss : retrieveFromCache prefix rev w = (Ok None, w)).
  { rewrite retrieveFromCache_settled by done.
    pose proof (Hfresh (metadataKey prefix, CMeta (N.of_nat (length chunks)))) as Hm.
    simpl in Hm. by rewrite Hm by (by left). }
  rewrite (get_miss prefix fetchData rev w w Hmiss), Hfetch.
  rewrite (storeInCache_run prefix rev data chunks text) by done.
  destruct (Promise_all_store rev (written_entries prefix chunks) (fetched w))
    as (l & w1 & Hrun & Hf1 & Hn1 & _ & Hsettled & Hwritten).
  { intros kv _. simpl. by rewrite Hf, lookup_empty. }
  destruct (Promise_all_store_gen rev (written_entries prefix chunks) (fetched w))
    as (r' & w1' & Hrun' & _ & _ & _ & Hframe & _).
  rewrite Hrun in Hrun'. injection Hrun' as <- <-. rewrite Hrun.
  exists w1. split_and!; [done|done| |done].
  apply (get_populated_hit prefix fetchData rev w1 data chunks).
  - split; [by rewrite Hf1|]. by apply Hsettled.
  - intros kv Hin. apply (Hwritten (written_entries_NoDup prefix rev chunks) kv Hin).
    by apply Hfresh.
  - destruct (splitIntoChunks_inv _ _ _ _ Hsplit) as [_ Hloop].
    by rewrite (chunk_loop_join _ _ _ _ _ Hloop).
Qed.

(** X21: when the cache path yields a miss and [JSON.stringify] throws on
    the producer's value, [get()] rejects with that error after the one call
    of the producer, and nothing is written to the cache. *)
Theorem stringify_failure_propagates (w w' : World) (data : Value) (e : Exn) :
  retrieveFromCache prefix rev w = (Ok None, w') ->
  fetchData (fetches w') = Ok data ->
  JSON_stringify data = Throw e ->
  get prefix fetchData rev w = (Throw e, fetched w').
Proof.
  intros Hmiss Hfetch Hthrow.
  rewrite (get_miss _ _ _ _ _ Hmiss), Hfetch.
  rewrite (storeInCache_throws prefix rev data e); [done|].
  unfold splitIntoChunks. by rewrite Hthrow.
Qed.

End MissPath.

Lemma miss_then_hit_among_other_entries_witness :
  let w := mkWorld {[js "other" := CChunk (js "entry")]} ∅ ∅ 0 in
  exists w1,
    get (js "k") (fun _ => Ok (JsString (js "hello"))) 3600 w
      = (Ok (JsString (js "hello")), w1) /\
    fetches w1 = S (fetches w) /\
    get (js "k") (fun _ => Ok (JsString (js "hello"))) 3600 w1
      = (Ok (JsString (js "hello")), w1) /\
    (forall k, k ∉ (fun kv => cacheKeyOf kv.1 3600)
                     <$> written_entries (js "k") [34 :: js "hello" ++ [34]] ->
               dataCache w1 !! k = dataCache w !! k).
Proof.
  intros w.
  apply (miss_then_hit_among_other_entries (js "k")
           (fun _ => Ok (JsString (js "hello"))) 3600 w (JsString (js "hello"))
           [34 :: js "hello" ++ [34]] (34 :: js "hello" ++ [34])).
  - split; [reflexivity|]. intros k _. reflexivity.
  - reflexivity.
  - reflexivity.
  - reflexivity.
  - intros kv Hin. unfold written_entries in Hin. simpl in Hin.
    apply elem_of_cons in Hin as [->|Hin]; [vm_compute; reflexivity|].
    apply elem_of_cons in Hin as [->|Hin]; [vm_compute; reflexivity|].
    by apply elem_of_nil in Hin.
Defined.

Lemma stringify_failure_propagates_witness :
  get (H := cyclic_Json) (js "k") (fun _ => Ok tt) 3600 emptyWorld
    = (Throw TypeError, fetched emptyWorld).
Proof.
  apply (stringify_failure_propagates (H := cyclic_Json) (js "k") (fun _ => Ok tt) 3600
           emptyWorld emptyWorld tt TypeError); vm_compute; reflexivity.
Defined.

(** ** Healing *)

Section Healing.
Context {Value : Type} `{Json Value}.
Variable prefix : jsstring.
Variable fetchData : nat -> Outcome Value.
Variable rev : N.

(** X23: a loss that is detected heals when the producer returns the same
    payload again: in a world where the primitive works and nothing waits in
    [requestStore], where each entry of an earlier store-back of the payload
    is either intact or gone and the cache path yields a miss, [get()]
    returns the producer's payload, writes the entries that were gone, and
    the next [get()] is a hit that returns the payload with no call of the
    producer. *)
Theorem refetch_heals_lost_entries (w : World) (data : Value)
    (chunks : list jsstring) (text : jsstring) :
  settled w ->
  splitIntoChunks data SAFE_CHUNK_SIZE_BYTES = Ok (chunks, text) ->
  JSON_parse text = Some data ->
  (forall kv, kv ∈ written_entries prefix chunks ->
              dataCache w !! cacheKeyOf kv.1 rev = Some kv.2 \/
              dataCache w !! cacheKeyOf kv.1 rev = None) ->
  retrieveFromCache prefix rev w = (Ok None, w) ->
  fetchData (fetches w) = Ok data ->
  exists w1,
    get prefix fetchData rev w = (Ok data, w1) /\
    fetches w1 = S (fetches w) /\
    get prefix fetchData rev w1 = (Ok data, w1).
Proof.
  intros [Hf Hb] Hsplit Hparse Hentries Hmiss Hfetch.
  rewrite (get_miss prefix fetchData rev w w Hmiss), Hfetch.
  rewrite (storeInCache_run prefix rev data chunks text) by done.
  destruct (Promise_all_store rev (written_entries prefix chunks) (fetched w))
    as (l & w1 & -> & Hf1 & Hn1 & Hmono & Hsettled & Hwritten).
  { intros kv _. simpl. by rewrite Hf, lookup_empty. }
  exists w1. split_and!; [done..|].
  apply (get_populated_hit prefix fetchData rev w1 data chunks).
  - split; [by rewrite Hf1|]. by apply Hsettled.
  - intros kv Hin. destruct (Hentries kv Hin) as [Hthere|Hgone].
    + by apply Hmono.
    + by apply (Hwritten (written_entries_NoDup prefix rev chunks) kv Hin).
  - destruct (splitIntoChunks_inv _ _ _ _ Hsplit) as [_ Hloop].
    by rewrite (chunk_loop_join _ _ _ _ _ Hloop).
Qed.
End Healing.

Lemma refetch_heals_lost_entries_witness :
  let w := mkWorld {[cacheKeyOf (metadataKey (js "k")) 3600 := CMeta 1]} ∅ ∅ 0 in
  exists w1,
    get (js "k") (fun _ => Ok (JsString (js "hello"))) 3600 w
      = (Ok (JsString (js "hello")), w1) /\
    fetches w1 = S (fetches w) /\
    get (js "k") (fun _ => Ok (JsString (js "hello"))) 3600 w1
      = (Ok (JsString (js "hello")), w1).
Proof.
  intros w.
  apply (refetch_heals_lost_entries (js "k") (fun _ => Ok (JsString (js "hello"))) 3600
           w (JsString (js "hello")) [34 :: js "hello" ++ [34]]
           (34 :: js "hello" ++ [34])).
  - split; [reflexivity|]. intros k _. reflexivity.
  - reflexivity.
  - reflexivity.
  - intros kv Hin. unfold written_entries in Hin. simpl in Hin.
    apply elem_of_cons in Hin as [->|Hin]; [left; vm_compute; reflexivity|].
    apply elem_of_cons in Hin as [->|Hin]; [right; vm_compute; reflexivity|].
    by apply elem_of_nil in Hin.
  - vm_compute; reflexivity.
  - reflexivity.
Defined.
